(** * Nim against a minimax AI: the evaluator of [game.cpp]

    A shallow embedding of [src/game.cpp]: the game core ([is_terminal],
    [key_of], [generate_children], [terminal_score], [minimax],
    [best_ai_move]) with the properties of it that the specification states,
    and the console game around it ([print_board], [main]).

    Conventions of the embedding.
    - A C++ [int] is a [Z].  The evaluator does no arithmetic on scores, and
      on piles only [next[i] -= take] with [1 <= take <= p[i]], which cannot
      leave the range of [int].  The counter of the inner loop of
      [generate_children] is taken as unbounded: for a pile equal to
      [INT_MAX] its last increment overflows in C++, which the language
      leaves undefined.
    - [unordered_map<string,int>] is a [gmap string Z], threaded through the
      calls (the C++ code passes it by reference).
    - A [Node] carries [piles] and [player].  The C++ struct also has a
      [score] field, which a call of [minimax] reads only after it has
      written it, and a [children] vector, which is empty in every node
      handed to [minimax] or [generate_children] (nodes are fresh from the
      constructor, and [best_ai_move] clears the root's vector before it
      generates again); so [minimax] returns the score it would store, and
      [generate_children] the children it pushes.
    - The recursion of [minimax] is bounded by a depth budget [fuel], the
      number of nested activations the call stack can hold; [None] is an
      exhausted budget.
    - [cout] is the list of chunks written, [cin] the list of integers
      still to be extracted.  A run of [main] that needs an integer when
      none is left stops there with [InputEnd]: what the C++ program does
      after a failed extraction is outside the embedding, as is input in
      which [pidx - 1] leaves the range of [int]. *)

From Stdlib Require Import ZArith Lia Ascii.
From stdpp Require Import gmap strings list sorting pretty.

Local Open Scope Z_scope.

(** ** Constants *)

Definition INT_MIN : Z := -2147483648.
Definition INT_MAX : Z := 2147483647.

(** [player = 1] is the human, [player = 2] the AI. *)
Definition HUMAN : Z := 1.
Definition AI : Z := 2.

(** ** Data *)

Record Node : Type := mkNode { piles : list Z; player : Z }.

Abbreviation Memo := (gmap string Z).

(** ** [is_terminal]: every pile is empty *)

Fixpoint is_terminal (piles : list Z) : bool :=
  match piles with
  | [] => true
  | x :: rest => if negb (x =? 0) then false else is_terminal rest
  end.

(** ** [key_of]: the memo key of a state *)

(** [std::to_string(int)]: decimal digits, with a leading minus sign for a
    negative number. *)
Definition to_string (x : Z) : string := pretty x.

(** [std::sort] on a copy of the piles, ascending. *)
Definition sort (s : list Z) : list Z := merge_sort Z.le s.

Definition key_of (piles : list Z) (player : Z) : string :=
  let s := sort piles in
  let k := foldl (fun k x => k +:+ (to_string x +:+ ",")) "" s in
  k +:+ ("|P" +:+ to_string player).

(** ** [generate_children] *)

(** The player of a child: [node->player == 1 ? 2 : 1]. *)
Definition next_player (player : Z) : Z := if player =? 1 then 2 else 1.

(** The inner loop [for (take = 1; take <= p[i]; ++take)], entered with
    [iters] iterations to go; [v] is [p[i]]. *)
Fixpoint take_loop (p : list Z) (pl : Z) (i : nat) (v : Z) (take : Z)
    (iters : nat) : list Node :=
  match iters with
  | O => []
  | S iters' =>
      if take <=? v
      then mkNode (<[i := v - take]> p) (next_player pl)
             :: take_loop p pl i v (take + 1) iters'
      else []
  end.

Definition generate_children (node : Node) : list Node :=
  let p := piles node in
  flat_map
    (fun i =>
       match p !! i with
       | Some v =>
           if v =? 0 then []
           else take_loop p (player node) i v 1 (Z.to_nat v)
       | None => []
       end)
    (seq 0 (length p)).

(** ** [terminal_score] *)

Definition terminal_score (player_to_move : Z) : Z :=
  if player_to_move =? 2 then -1 else 1.

(** ** [minimax] *)

(** The two loops [best = max(best, minimax(child, memo))] and
    [best = min(best, minimax(child, memo))]: [pick] is [Z.max] or [Z.min],
    [ev] the recursive call. *)
Fixpoint score_loop (pick : Z -> Z -> Z)
    (ev : Node -> Memo -> option (Z * Memo))
    (cs : list Node) (best : Z) (memo : Memo) : option (Z * Memo) :=
  match cs with
  | [] => Some (best, memo)
  | c :: cs' =>
      match ev c memo with
      | Some (v, memo') => score_loop pick ev cs' (pick best v) memo'
      | None => None
      end
  end.

Fixpoint minimax (fuel : nat) (node : Node) (memo : Memo)
    : option (Z * Memo) :=
  match fuel with
  | O => None
  | S fuel' =>
      if is_terminal (piles node)
      then Some (terminal_score (player node), memo)
      else
        let K := key_of (piles node) (player node) in
        match memo !! K with
        | Some cached => Some (cached, memo)
        | None =>
            let cs := generate_children node in
            let scored :=
              if player node =? 2
              then score_loop Z.max (minimax fuel') cs INT_MIN memo
              else score_loop Z.min (minimax fuel') cs INT_MAX memo in
            match scored with
            | Some (best, memo') => Some (best, <[K := best]> memo')
            | None => None
            end
        end
  end.

(** ** [best_ai_move] *)

(** The loop that finds the first pile in which the child differs from the
    board, [i] counting the index; without a difference the move is left as
    it was. *)
Fixpoint diff_loop (board cpiles : list Z) (i : Z) (bestMove : Z * Z)
    : Z * Z :=
  match board, cpiles with
  | x :: board', y :: cpiles' =>
      if negb (y =? x) then (i, x - y)
      else diff_loop board' cpiles' (i + 1) bestMove
  | _, _ => bestMove
  end.

Fixpoint select_loop (ev : Node -> Memo -> option (Z * Memo))
    (board : list Z) (cs : list Node) (bestScore : Z) (bestMove : Z * Z)
    (memo : Memo) : option (Z * Z) :=
  match cs with
  | [] => Some bestMove
  | c :: cs' =>
      match ev c memo with
      | Some (val, memo') =>
          if val >? bestScore
          then select_loop ev board cs' val
                 (diff_loop board (piles c) 0 bestMove) memo'
          else select_loop ev board cs' bestScore bestMove memo'
      | None => None
      end
  end.

Definition best_ai_move (fuel : nat) (board : list Z) : option (Z * Z) :=
  let root := mkNode board 2 in
  match minimax fuel root ∅ with
  | Some (_, memo) =>
      select_loop (minimax fuel) board (generate_children root)
        INT_MIN (-1, -1) memo
  | None => None
  end.

(** ** The measures and reference notions of the specification *)

(** The number of objects on the board. *)
Definition total (piles : list Z) : nat :=
  foldr (fun x n => (Z.to_nat x + n)%nat) 0%nat piles.

(** The nim-sum: bitwise XOR of all pile sizes. *)
Definition nim_sum (piles : list Z) : Z := foldr Z.lxor 0 piles.

(** ** The children as the specification enumerates them *)

(** The enumeration the specification describes: piles by ascending index,
    for each pile of value [v] the takes [1..v] in ascending order (none
    when [v <= 0]), each giving the board with that pile reduced. *)
Definition child_of (node : Node) (i : nat) (v take : Z) : Node :=
  mkNode (<[i := v - take]> (piles node)) (next_player (player node)).

Definition moves_of (node : Node) : list (list Node) :=
  imap (fun i v => child_of node i v <$> seqZ 1 v) (piles node).

(** ** The key, read from the left *)

(** The key as the loop builds it, read from the left: every pile followed by
    a comma. *)
Definition items (s : list Z) : string :=
  foldr (fun x r => to_string x +:+ String ","%char r) "" s.

(** [free_of a s]: the character [a] does not occur in [s]. *)
Fixpoint free_of (a : ascii) (s : string) : Prop :=
  match s with
  | EmptyString => True
  | String c r => c <> a /\ free_of a r
  end.

(** ** Minimax without a memo table *)

(** The recursion of [minimax] with the table taken out: the reference the
    memoised evaluator is compared with.  [fuel] bounds the depth as before;
    at depth zero the value is arbitrary. *)
Fixpoint minimax_plain (fuel : nat) (node : Node) : Z :=
  match fuel with
  | O => 0
  | S fuel' =>
      if is_terminal (piles node) then terminal_score (player node)
      else
        let scores := minimax_plain fuel' <$> generate_children node in
        if player node =? 2 then foldl Z.max INT_MIN scores
        else foldl Z.min INT_MAX scores
  end.

(** The value of a state: plain minimax with a budget that suffices. *)
Definition game_value (node : Node) : Z :=
  minimax_plain (S (total (piles node))) node.

(** ** Memo tables *)

(** A table is sound when every entry filed under the key of a state is the
    value of that state. *)
Definition memo_sound (memo : Memo) : Prop :=
  forall node v,
    memo !! key_of (piles node) (player node) = Some v -> v = game_value node.

(** The tables that evaluations build: the empty one, and what a run of
    [minimax] leaves behind when it started from such a table. *)
Inductive populated : Memo -> Prop :=
  | populated_empty : populated ∅
  | populated_minimax fuel node memo v memo' :
      populated memo ->
      minimax fuel node memo = Some (v, memo') ->
      populated memo'.

(** [scores node v]: the evaluator, started on some table built by prior
    evaluations, returns [v] for [node]. *)
Definition scores (node : Node) (v : Z) : Prop :=
  exists fuel memo memo',
    populated memo /\ minimax fuel node memo = Some (v, memo').

(** ** Legal moves *)

(** A legal move on [board]: an index of a pile and an amount between one
    and the size of that pile. *)
Definition legal_move (board : list Z) (mv : Z * Z) : Prop :=
  exists v, 0 <= mv.1 /\ board !! Z.to_nat mv.1 = Some v /\ 1 <= mv.2 <= v.

(** ** [print_board] and [main]: the console game *)

(** Console text is modelled as the sequence of chunks written to [cout],
    one per output statement; console input as the sequence of integers
    that [cin >> x] extracts. *)

(** The line feed ["\n"]. *)
Definition nl : string := String "010"%char EmptyString.

(** [print_board]: a header, then one line per pile, numbered from 1. *)
Definition print_board (piles : list Z) : list string :=
  (nl +:+ "Current piles:" +:+ nl)
  :: imap (fun i v =>
             "Pile " +:+ to_string (Z.of_nat i + 1) +:+ ": "
             +:+ to_string v +:+ nl)
       piles.

(** The announcement at the end: [turn == 1 ? "AI" : "You"]. *)
Definition winner (turn : Z) : string := if turn =? 1 then "AI" else "You".

Definition game_over (turn : Z) : string :=
  nl +:+ "Game over. Winner is " +:+ winner turn +:+ "!" +:+ nl.

Definition ai_removes (mv : Z * Z) : string :=
  "AI removes " +:+ to_string mv.2 +:+ " from pile "
  +:+ to_string (mv.1 + 1) +:+ nl.

(** How a run ends. *)
Inductive Exit : Type :=
  | Returned      (* [return 0] after the game is over *)
  | InputEnd      (* no integer left to extract: beyond the model *)
  | LengthError   (* [vector<int> piles(n)] with a negative [n] *)
  | OutOfBounds   (* [piles[mv.first]] outside the vector: undefined *)
  | StackEnd      (* [minimax] deeper than the depth budget *)
  | IterEnd.      (* the budget of loop iterations is used up *)

(** Text written before the rest of a run. *)
Definition emit (chunks : list string) (r : Exit * list string)
    : Exit * list string :=
  (r.1, chunks ++ r.2).

(** The test of a human move, [pidx] already decremented:
    [pidx < 0 || pidx >= n || amt <= 0 || amt > piles[pidx]]. *)
Definition invalid_move (n : Z) (piles : list Z) (pidx amt : Z) : bool :=
  (pidx <? 0) || (pidx >=? n) || (amt <=? 0)
  || match piles !! Z.to_nat pidx with
     | Some v => amt >? v
     | None => true
     end.

(** [piles[i] -= amt]. *)
Definition remove_from (piles : list Z) (i : Z) (amt : Z) : list Z :=
  match piles !! Z.to_nat i with
  | Some v => <[Z.to_nat i := v - amt]> piles
  | None => piles
  end.

(** The loop [while (true)] of [main]: [iters] bounds the iterations,
    [depth] is the depth budget of [minimax], [n] the number of piles. *)
Fixpoint game_loop (iters depth : nat) (n : Z) (piles : list Z) (turn : Z)
    (input : list Z) : Exit * list string :=
  match iters with
  | O => (IterEnd, [])
  | S iters' =>
      emit (print_board piles)
        (if is_terminal piles then (Returned, [game_over turn])
         else if turn =? 1 then
           emit [nl +:+ "Your move (pile number & how many to remove): "]
             match input with
             | pidx :: amt :: input' =>
                 let pidx := pidx - 1 in
                 if invalid_move n piles pidx amt
                 then emit ["Invalid move. Try again." +:+ nl]
                        (game_loop iters' depth n piles turn input')
                 else game_loop iters' depth n
                        (remove_from piles pidx amt) 2 input'
             | _ => (InputEnd, [])
             end
         else
           emit [nl +:+ "AI is thinking..." +:+ nl]
             match best_ai_move depth piles with
             | Some mv =>
                 emit [ai_removes mv]
                   (if (0 <=? mv.1) && (mv.1 <? Z.of_nat (length piles))
                    then game_loop iters' depth n
                           (remove_from piles mv.1 mv.2) 1 input
                    else (OutOfBounds, []))
             | None => (StackEnd, [])
             end)
  end.

(** [main]: the number of piles, the piles and the first player are read,
    then the game runs. *)
Definition main (iters depth : nat) (input : list Z) : Exit * list string :=
  emit ["Welcome to the Nim Game!" +:+ nl +:+ nl; "Enter number of piles: "]
    match input with
    | n :: input1 =>
        if n <? 0 then (LengthError, [])
        else
          emit ["Enter pile sizes:" +:+ nl]
            (let piles := take (Z.to_nat n) input1 in
             if (length piles <? Z.to_nat n)%nat then (InputEnd, [])
             else
               emit ["Who goes first? (1 = You, 2 = AI): "]
                 match drop (Z.to_nat n) input1 with
                 | turn :: input2 => game_loop iters depth n piles turn input2
                 | [] => (InputEnd, [])
                 end)
    | [] => (InputEnd, [])
    end.

(** [grows_below bound memo memo']: [memo'] keeps every entry of [memo],
    and each key it adds is the key of a non-terminal state with fewer than
    [bound] objects. *)
Definition grows_below (bound : nat) (memo memo' : Memo) : Prop :=
  memo ⊆ memo'
  /\ forall k, memo !! k = None -> is_Some (memo' !! k) ->
       exists node,
         k = key_of (piles node) (player node)
         /\ is_terminal (piles node) = false
         /\ (total (piles node) < bound)%nat.

(** The characters written: the chunks one after the other. *)
Definition text (chunks : list string) : string :=
  foldr String.append "" chunks.

(** ** Tactics *)

(** Equations between XOR expressions, bit by bit. *)
Ltac xor_bits :=
  apply Z.bits_inj'; intros ? ?;
  rewrite ?Z.lxor_spec, ?Z.bits_0;
  repeat match goal with
         | |- context [Z.testbit ?a ?n] => destruct (Z.testbit a n)
         end;
  reflexivity.

(** Lists of non-negative literals. *)
Ltac nonneg_list :=
  repeat first [apply List.Forall_nil | apply List.Forall_cons; [lia|]].

(** * The evaluator on small boards *)

Example key_of_345 : key_of [5; 3; 4] 2 = "3,4,5,|P2"%string.
Proof. vm_compute. reflexivity. Qed.

Example children_21 :
  generate_children (mkNode [2; 0; 1] 2)
  = [mkNode [1; 0; 1] 1; mkNode [0; 0; 1] 1; mkNode [2; 0; 0] 1].
Proof. reflexivity. Qed.

Example best_345 : best_ai_move 13 [3; 4; 5] = Some (0, 2).
Proof. vm_compute. reflexivity. Qed.

Example best_11 : best_ai_move 3 [1; 1] = Some (0, 1).
Proof. vm_compute. reflexivity. Qed.

(** One pile of one object: the AI takes it and the human faces the empty
    board. *)
Example best_1 :
  best_ai_move 2 [1] = Some (0, 1)
  /\ fst <$> minimax 1 (mkNode [0] HUMAN) ∅ = Some 1.
Proof. split; vm_compute; reflexivity. Qed.

(** Two piles of one: nim-sum zero, the AI to move has lost. *)
Example root_11 : fst <$> minimax 3 (mkNode [1; 1] AI) ∅ = Some (-1).
Proof. vm_compute. reflexivity. Qed.

(** Piles 3, 4, 5: the AI wins, and its move leaves nim-sum zero. *)
Example root_345 :
  fst <$> minimax 13 (mkNode [3; 4; 5] AI) ∅ = Some 1
  /\ nim_sum (<[0%nat := 3 - 2]> [3; 4; 5]) = 0.
Proof. split; vm_compute; reflexivity. Qed.

(** A budget of as many activations as there are objects is not enough. *)
Example root_345_shallow : minimax 12 (mkNode [3; 4; 5] AI) ∅ = None.
Proof. vm_compute. reflexivity. Qed.

(** * Terminal boards and the measure *)

Section Terminal.

Lemma is_terminal_Forall (p : list Z) :
  is_terminal p = true <-> Forall (fun x => x = 0) p.
Proof.
  induction p as [|x p IH]; simpl.
  - split; auto.
  - destruct (Z.eqb_spec x 0) as [->|Hx]; simpl.
    + rewrite IH. split; [by constructor | by inversion 1].
    + split; [done | inversion 1; done].
Qed.

Lemma is_terminal_false_Exists (p : list Z) :
  is_terminal p = false <-> Exists (fun x => x <> 0) p.
Proof.
  induction p as [|x p IH]; simpl.
  - split; [done | inversion 1].
  - destruct (Z.eqb_spec x 0) as [->|Hx]; simpl.
    + rewrite IH. split; [by constructor 2 | by inversion 1].
    + split; [by constructor 1 | done].
Qed.

Lemma total_terminal (p : list Z) : is_terminal p = true -> total p = 0%nat.
Proof.
  rewrite is_terminal_Forall. induction 1 as [|x p -> _ IH]; simpl; lia.
Qed.

Lemma total_insert (p : list Z) (i : nat) (v w : Z) :
  p !! i = Some v ->
  (total (<[i := w]> p) + Z.to_nat v = total p + Z.to_nat w)%nat.
Proof.
  revert i. induction p as [|x p IH]; intros [|i] Hi; simplify_eq/=.
  - lia.
  - specialize (IH _ Hi). lia.
Qed.

Lemma nonneg_insert (p : list Z) (i : nat) (w : Z) :
  Forall (fun x => 0 <= x) p -> 0 <= w ->
  Forall (fun x => 0 <= x) (<[i := w]> p).
Proof. intros Hp Hw. by apply Forall_insert. Qed.

End Terminal.

(** * The children of a node *)

Section Children.

Lemma take_loop_seqZ p pl i v take iters :
  take + Z.of_nat iters - 1 <= v ->
  take_loop p pl i v take iters
  = child_of (mkNode p pl) i v <$> seqZ take (Z.of_nat iters).
Proof.
  revert take. induction iters as [|n IH]; intros take Hle.
  - done.
  - cbn [take_loop]. destruct (Z.leb_spec take v); [|lia].
    rewrite seqZ_cons by lia. rewrite fmap_cons. f_equal.
    rewrite IH by lia. do 2 f_equal; lia.
Qed.

Lemma pile_moves p pl i v :
  (if v =? 0 then [] else take_loop p pl i v 1 (Z.to_nat v))
  = child_of (mkNode p pl) i v <$> seqZ 1 v.
Proof.
  destruct (Z.eqb_spec v 0) as [->|Hv]; [done|].
  destruct (Z_lt_le_dec v 0) as [Hneg|Hpos].
  - rewrite seqZ_nil by lia. by destruct v.
  - rewrite take_loop_seqZ by lia. by rewrite Z2Nat.id.
Qed.

Lemma flat_map_lookup_imap {A B} (g : nat -> A -> list B) (pre l : list A) :
  flat_map
    (fun i => match (pre ++ l) !! i with Some v => g i v | None => [] end)
    (seq (length pre) (length l))
  = mjoin (imap (fun j => g (length pre + j)%nat) l).
Proof.
  revert pre. induction l as [|x l IH]; intros pre; [done|].
  cbn [length seq flat_map]. rewrite imap_cons. cbn [mjoin list_join].
  rewrite list_lookup_middle by done. rewrite Nat.add_0_r. f_equal.
  specialize (IH (pre ++ [x])).
  rewrite <-(assoc_L (++)) in IH. simpl in IH.
  rewrite length_app in IH. simpl in IH.
  rewrite Nat.add_1_r in IH. rewrite IH.
  f_equal. apply imap_ext. intros j y _. simpl. f_equal. lia.
Qed.

Lemma generate_children_moves node :
  generate_children node = mjoin (moves_of node).
Proof.
  unfold generate_children, moves_of. destruct node as [p pl]; simpl.
  pose proof (flat_map_lookup_imap
    (fun i v => child_of (mkNode p pl) i v <$> seqZ 1 v) [] p) as H.
  simpl in H. rewrite <-H. clear H.
  apply flat_map_ext. intros i. destruct (p !! i) as [v|]; [|done].
  apply pile_moves.
Qed.

(** Membership in the children, by pile and take. *)
Lemma elem_of_generate_children node c :
  c ∈ generate_children node <->
  exists (i : nat) (v take : Z),
    piles node !! i = Some v /\ 1 <= take <= v /\ c = child_of node i v take.
Proof.
  rewrite generate_children_moves. unfold moves_of.
  rewrite list_elem_of_join. split.
  - intros (l & Hc & Hl).
    apply list_elem_of_lookup in Hl as [i Hl].
    rewrite list_lookup_imap in Hl.
    destruct (piles node !! i) as [v|] eqn:Hi; simplify_eq/=.
    apply list_elem_of_fmap in Hc as (take & -> & Ht).
    apply elem_of_seqZ in Ht. exists i, v, take.
    split; [done|]. split; [lia|done].
  - intros (i & v & take & Hi & Ht & ->).
    exists (child_of node i v <$> seqZ 1 v). split.
    + apply list_elem_of_fmap. exists take. split; [done|].
      apply elem_of_seqZ. lia.
    + apply list_elem_of_lookup. exists i.
      by rewrite list_lookup_imap, Hi.
Qed.

Lemma generate_children_terminal node :
  is_terminal (piles node) = true -> generate_children node = [].
Proof.
  intros Ht. destruct (generate_children node) as [|c cs] eqn:Hcs; [done|].
  assert (c ∈ generate_children node) as Hc by (rewrite Hcs; left).
  apply elem_of_generate_children in Hc as (i & v & take & Hi & Hr & _).
  apply is_terminal_Forall in Ht.
  rewrite Forall_lookup in Ht. specialize (Ht _ _ Hi). lia.
Qed.

(** A board with a positive pile has a child: the first positive pile
    reduced by one comes first. *)
Lemma generate_children_first node :
  Forall (fun x => 0 <= x) (piles node) ->
  is_terminal (piles node) = false ->
  exists (i : nat) (v : Z) cs,
    piles node !! i = Some v /\ 1 <= v /\
    generate_children node = child_of node i v 1 :: cs.
Proof.
  rewrite generate_children_moves. unfold moves_of.
  destruct node as [p pl]. simpl.
  generalize (child_of (mkNode p pl)) as g. intros g Hnn Hterm.
  induction p as [|x p IH] in g, Hnn, Hterm |- *; [done|].
  inversion Hnn as [|? ? Hx Hp]; subst.
  rewrite imap_cons. simpl in Hterm.
  destruct (Z.eqb_spec x 0) as [->|Hx0]; simpl in Hterm.
  - destruct (IH (g ∘ S) Hp Hterm) as (i & v & cs & Hi & Hv & Hcs).
    exists (S i), v, cs. repeat split; [done..|].
    cbn [mjoin list_join]. rewrite seqZ_nil by lia. simpl. apply Hcs.
  - exists 0%nat, x. eexists. repeat split; [lia|].
    cbn [mjoin list_join]. rewrite seqZ_cons by lia. rewrite fmap_cons.
    simpl. reflexivity.
Qed.

End Children.

(** * The memo key *)

Section Key.

Lemma app_String c s t : String c s +:+ t = String c (s +:+ t).
Proof. reflexivity. Qed.

Lemma app_empty_l t : "" +:+ t = t.
Proof. reflexivity. Qed.

Lemma app_empty_r s : s +:+ "" = s.
Proof. induction s as [|c s IH]; [done|]. by rewrite app_String, IH. Qed.

Lemma string_app_assoc s t u : (s +:+ t) +:+ u = s +:+ (t +:+ u).
Proof.
  induction s as [|c s IH]; [done|]. by rewrite !app_String, IH.
Qed.

Lemma foldl_items acc s :
  foldl (fun k x => k +:+ (to_string x +:+ ",")) acc s = acc +:+ items s.
Proof.
  revert acc. induction s as [|x s IH]; intros acc; simpl.
  - by rewrite app_empty_r.
  - rewrite IH. rewrite !string_app_assoc. do 2 f_equal.
Qed.

Lemma key_of_items p pl :
  key_of p pl = items (sort p) +:+ ("|P" +:+ to_string pl).
Proof. unfold key_of. by rewrite foldl_items. Qed.

(** Sorting forgets the order of the piles, and nothing else. *)
Lemma sort_Permutation p : sort p ≡ₚ p.
Proof. apply merge_sort_Permutation. Qed.

Lemma sort_perm p q : p ≡ₚ q -> sort p = sort q.
Proof.
  intros Hpq. apply (Sorted_unique Z.le).
  - apply (Sorted_merge_sort Z.le).
  - apply (Sorted_merge_sort Z.le).
  - by rewrite !sort_Permutation.
Qed.

Lemma sort_eq_perm p q : sort p = sort q -> p ≡ₚ q.
Proof.
  intros H. rewrite <-(sort_Permutation p), <-(sort_Permutation q).
  by rewrite H.
Qed.

(** Decimal numerals contain neither of the two separators of a key. *)
Lemma pretty_N_char_digit d a :
  a = ","%char \/ a = "|"%char -> pretty_N_char d <> a.
Proof.
  intros [-> | ->]; unfold pretty_N_char; repeat case_match; discriminate.
Qed.

Lemma pretty_N_go_free a x s :
  a = ","%char \/ a = "|"%char -> free_of a s -> free_of a (pretty_N_go x s).
Proof.
  intros Ha. revert s.
  induction (N.lt_wf_0 x) as [x _ IH]. intros s Hs.
  destruct (decide (x = 0)%N) as [->|Hx].
  - by rewrite pretty_N_go_0.
  - rewrite pretty_N_go_step by lia. apply IH.
    + apply N.div_lt; lia.
    + split; [by apply pretty_N_char_digit | done].
Qed.

Lemma pretty_N_free a (x : N) :
  a = ","%char \/ a = "|"%char -> free_of a (pretty x).
Proof.
  intros Ha. unfold pretty, pretty_N. case_decide.
  - destruct Ha as [-> | ->]; by split.
  - by apply pretty_N_go_free.
Qed.

Lemma to_string_free a z :
  a = ","%char \/ a = "|"%char -> free_of a (to_string z).
Proof.
  intros Ha. unfold to_string, pretty, pretty_Z. destruct z as [|q|q].
  - destruct Ha as [-> | ->]; by split.
  - by apply pretty_N_free.
  - rewrite app_String, app_empty_l. split.
    + destruct Ha as [-> | ->]; discriminate.
    + by apply pretty_N_free.
Qed.

Lemma to_string_inj x y : to_string x = to_string y -> x = y.
Proof. apply pretty_Z_inj. Qed.

(** Two strings free of [a], each followed by [a], are cut at the same
    place. *)
Lemma split_at_sep a s1 s2 r1 r2 :
  free_of a s1 -> free_of a s2 ->
  s1 +:+ String a r1 = s2 +:+ String a r2 -> s1 = s2 /\ r1 = r2.
Proof.
  revert s2. induction s1 as [|c s1 IH]; intros [|d s2] H1 H2;
    rewrite ?app_String, ?app_empty_l; intros Heq.
  - by simplify_eq.
  - destruct H2 as [Hd _]. by simplify_eq.
  - destruct H1 as [Hc _]. by simplify_eq.
  - destruct H1 as [_ H1], H2 as [_ H2]. simplify_eq.
    destruct (IH s2 H1 H2) as [-> ->]; done.
Qed.

Lemma items_cons x s t :
  items (x :: s) +:+ t = to_string x +:+ String ","%char (items s +:+ t).
Proof. simpl. by rewrite string_app_assoc, app_String. Qed.

Lemma items_player_inj s s' pl pl' :
  items s +:+ ("|P" +:+ to_string pl) = items s' +:+ ("|P" +:+ to_string pl')
  -> s = s' /\ pl = pl'.
Proof.
  revert s'. induction s as [|x s IH]; intros [|y s'];
    rewrite ?items_cons; simpl items; rewrite ?app_empty_l; intros Heq.
  - split; [done|]. apply to_string_inj.
    rewrite !app_String, !app_empty_l in Heq. by simplify_eq.
  - exfalso. pose proof (to_string_free "|"%char y (or_intror eq_refl)) as Hy.
    destruct (to_string y) as [|c r]; rewrite ?app_String, ?app_empty_l in Heq.
    + discriminate.
    + destruct Hy as [Hc _]. by simplify_eq.
  - exfalso. pose proof (to_string_free "|"%char x (or_intror eq_refl)) as Hx.
    destruct (to_string x) as [|c r]; rewrite ?app_String, ?app_empty_l in Heq.
    + discriminate.
    + destruct Hx as [Hc _]. by simplify_eq.
  - apply split_at_sep in Heq as [Hxy Hrest];
      [|by apply to_string_free; left..].
    apply to_string_inj in Hxy as ->.
    destruct (IH _ Hrest) as [-> ->]. done.
Qed.

(** Equal keys: the same multiset of piles and the same player. *)
Lemma key_of_inj p q pl pl' :
  key_of p pl = key_of q pl' -> p ≡ₚ q /\ pl = pl'.
Proof.
  rewrite !key_of_items. intros [Hs Hpl]%items_player_inj.
  split; [by apply sort_eq_perm | done].
Qed.

Lemma key_of_perm p q pl : p ≡ₚ q -> key_of p pl = key_of q pl.
Proof. intros Hpq. unfold key_of. by rewrite (sort_perm p q). Qed.

End Key.

(** * Termination: every move takes objects off the board *)

Section Termination.

Lemma child_total node c :
  c ∈ generate_children node ->
  (total (piles c) < total (piles node))%nat.
Proof.
  intros (i & v & take & Hi & Ht & ->)%elem_of_generate_children.
  pose proof (total_insert (piles node) i v (v - take) Hi) as H.
  simpl. lia.
Qed.

Lemma child_nonneg node c :
  Forall (fun x => 0 <= x) (piles node) ->
  c ∈ generate_children node ->
  Forall (fun x => 0 <= x) (piles c).
Proof.
  intros Hnn (i & v & take & Hi & Ht & ->)%elem_of_generate_children.
  simpl. apply nonneg_insert; [done | lia].
Qed.

Lemma score_loop_is_Some pick ev cs best memo :
  (forall c m, c ∈ cs -> is_Some (ev c m)) ->
  is_Some (score_loop pick ev cs best memo).
Proof.
  revert best memo. induction cs as [|c cs IH]; intros best memo Hev; simpl.
  - by eexists.
  - destruct (Hev c memo) as [[v memo'] ->]; [left|].
    apply IH. intros c' m Hc'. apply Hev. by right.
Qed.

Lemma minimax_is_Some fuel node memo :
  (total (piles node) < fuel)%nat -> is_Some (minimax fuel node memo).
Proof.
  revert node memo. induction fuel as [|fuel IH]; intros node memo Hlt; [lia|].
  simpl. destruct (is_terminal (piles node)); [by eexists|].
  destruct (memo !! _); [by eexists|].
  assert (forall c m, c ∈ generate_children node ->
            is_Some (minimax fuel c m)) as Hcs.
  { intros c m Hc. apply IH. apply child_total in Hc. lia. }
  destruct (player node =? 2).
  - destruct (score_loop_is_Some Z.max _ _ INT_MIN memo Hcs) as [[b m] ->].
    by eexists.
  - destruct (score_loop_is_Some Z.min _ _ INT_MAX memo Hcs) as [[b m] ->].
    by eexists.
Qed.

(** From an empty table the first branch of the search takes one object at a
    time, so a budget of [total] activations or fewer is exhausted. *)
Lemma minimax_empty_None fuel node :
  Forall (fun x => 0 <= x) (piles node) ->
  (fuel <= total (piles node))%nat ->
  minimax fuel node ∅ = None.
Proof.
  revert node. induction fuel as [|fuel IH]; intros node Hnn Hle; [done|].
  simpl. destruct (is_terminal (piles node)) eqn:Hterm.
  { apply total_terminal in Hterm. lia. }
  rewrite lookup_empty.
  destruct (generate_children_first node Hnn Hterm)
    as (i & v & cs & Hi & Hv & ->).
  assert (minimax fuel (child_of node i v 1) ∅ = None) as Hfirst.
  { apply IH.
    - simpl. apply nonneg_insert; [done | lia].
    - pose proof (total_insert (piles node) i v (v - 1) Hi). simpl. lia. }
  destruct (player node =? 2); simpl; by rewrite Hfirst.
Qed.

End Termination.

(** * The folds of the two loops *)

Section Folds.

Lemma foldl_max_spec (b : Z) (l : list Z) :
  (foldl Z.max b l = b \/ foldl Z.max b l ∈ l)
  /\ b <= foldl Z.max b l /\ Forall (fun x => x <= foldl Z.max b l) l.
Proof.
  revert b. induction l as [|x l IH]; intros b; simpl.
  - split; [by left|]. split; [lia | constructor].
  - destruct (IH (Z.max b x)) as (Hin & Hle & Hall).
    split; [|split; [lia | constructor; [lia | done]]].
    destruct Hin as [Heq | Hin]; [|right; by right].
    destruct (Z.max_spec b x) as [[_ Hm] | [_ Hm]].
    + right. rewrite Heq, Hm. left.
    + left. by rewrite Heq.
Qed.

Lemma foldl_min_spec (b : Z) (l : list Z) :
  (foldl Z.min b l = b \/ foldl Z.min b l ∈ l)
  /\ foldl Z.min b l <= b /\ Forall (fun x => foldl Z.min b l <= x) l.
Proof.
  revert b. induction l as [|x l IH]; intros b; simpl.
  - split; [by left|]. split; [lia | constructor].
  - destruct (IH (Z.min b x)) as (Hin & Hle & Hall).
    split; [|split; [lia | constructor; [lia | done]]].
    destruct Hin as [Heq | Hin]; [|right; by right].
    destruct (Z.min_spec b x) as [[_ Hm] | [_ Hm]].
    + left. by rewrite Heq.
    + right. rewrite Heq, Hm. left.
Qed.

(** The two folds see the set of scores only. *)
Lemma foldl_max_same_elems (b : Z) (l l' : list Z) :
  (forall x, x ∈ l <-> x ∈ l') -> foldl Z.max b l = foldl Z.max b l'.
Proof.
  intros Hll.
  destruct (foldl_max_spec b l) as (Hin & Hle & Hall).
  destruct (foldl_max_spec b l') as (Hin' & Hle' & Hall').
  rewrite Forall_forall in Hall, Hall'.
  apply Z.le_antisymm.
  - destruct Hin as [Heq | Hin]; [lia|]. apply Hall'. by apply Hll.
  - destruct Hin' as [Heq | Hin']; [lia|]. apply Hall. by apply Hll.
Qed.

Lemma foldl_min_same_elems (b : Z) (l l' : list Z) :
  (forall x, x ∈ l <-> x ∈ l') -> foldl Z.min b l = foldl Z.min b l'.
Proof.
  intros Hll.
  destruct (foldl_min_spec b l) as (Hin & Hle & Hall).
  destruct (foldl_min_spec b l') as (Hin' & Hle' & Hall').
  rewrite Forall_forall in Hall, Hall'.
  apply Z.le_antisymm.
  - destruct Hin' as [Heq | Hin']; [lia|]. apply Hall. by apply Hll.
  - destruct Hin as [Heq | Hin]; [lia|]. apply Hall'. by apply Hll.
Qed.

End Folds.

(** * The value of a state depends on the multiset of piles only *)

Section Value.

Lemma minimax_plain_fuel f1 f2 node :
  (total (piles node) < f1)%nat -> (total (piles node) < f2)%nat ->
  minimax_plain f1 node = minimax_plain f2 node.
Proof.
  revert f2 node. induction f1 as [|f1 IH]; intros [|f2] node H1 H2; try lia.
  simpl. destruct (is_terminal (piles node)); [done|].
  assert (minimax_plain f1 <$> generate_children node
          = minimax_plain f2 <$> generate_children node) as ->; [|done].
  apply Forall_fmap_ext, Forall_forall. intros c Hc.
  apply child_total in Hc. apply IH; lia.
Qed.

Lemma game_value_fuel fuel node :
  (total (piles node) < fuel)%nat -> minimax_plain fuel node = game_value node.
Proof. intros H. apply minimax_plain_fuel; [done | lia]. Qed.

(** One step of the recursion, on values. *)
Lemma game_value_unfold node :
  game_value node =
    if is_terminal (piles node) then terminal_score (player node)
    else if player node =? 2
         then foldl Z.max INT_MIN (game_value <$> generate_children node)
         else foldl Z.min INT_MAX (game_value <$> generate_children node).
Proof.
  unfold game_value at 1. simpl.
  destruct (is_terminal (piles node)); [done|].
  assert (minimax_plain (total (piles node)) <$> generate_children node
          = game_value <$> generate_children node) as ->; [|done].
  apply Forall_fmap_ext, Forall_forall. intros c Hc.
  apply game_value_fuel. by apply child_total.
Qed.

Lemma total_perm p q : p ≡ₚ q -> total p = total q.
Proof. induction 1; simpl; lia. Qed.

Lemma is_terminal_perm p q : p ≡ₚ q -> is_terminal p = is_terminal q.
Proof.
  intros Hpq. destruct (is_terminal q) eqn:Hq.
  - apply is_terminal_Forall. rewrite Hpq. by apply is_terminal_Forall.
  - apply is_terminal_false_Exists. rewrite Hpq.
    by apply is_terminal_false_Exists.
Qed.

Lemma insert_Permutation_delete (p : list Z) i v w :
  p !! i = Some v -> <[i := w]> p ≡ₚ w :: delete i p.
Proof.
  intros Hi. apply lookup_lt_Some in Hi.
  rewrite insert_take_drop by done. rewrite delete_take_drop.
  by rewrite Permutation_middle.
Qed.

Lemma perm_child (p q : list Z) i v w :
  p ≡ₚ q -> p !! i = Some v ->
  exists j, q !! j = Some v /\ <[i := w]> p ≡ₚ <[j := w]> q.
Proof.
  intros Hpq Hi.
  assert (v ∈ q) as [j Hj]%list_elem_of_lookup.
  { rewrite <-Hpq. by eapply list_elem_of_lookup_2. }
  exists j. split; [done|].
  rewrite (insert_Permutation_delete p i v w Hi).
  rewrite (insert_Permutation_delete q j v w Hj).
  f_equiv. apply (inj (cons v)).
  rewrite <-(delete_Permutation p i v Hi), <-(delete_Permutation q j v Hj).
  done.
Qed.

Lemma children_perm n n' c :
  piles n ≡ₚ piles n' -> player n = player n' ->
  c ∈ generate_children n ->
  exists c', c' ∈ generate_children n'
             /\ piles c ≡ₚ piles c' /\ player c = player c'.
Proof.
  intros Hp Hpl (i & v & take & Hi & Ht & ->)%elem_of_generate_children.
  destruct (perm_child _ _ i v (v - take) Hp Hi) as (j & Hj & Hperm).
  exists (child_of n' j v take). split; [|split].
  - apply elem_of_generate_children. by exists j, v, take.
  - done.
  - simpl. by rewrite Hpl.
Qed.

Lemma minimax_plain_perm fuel n n' :
  piles n ≡ₚ piles n' -> player n = player n' ->
  minimax_plain fuel n = minimax_plain fuel n'.
Proof.
  revert n n'. induction fuel as [|fuel IH]; intros n n' Hp Hpl; [done|].
  simpl. rewrite (is_terminal_perm _ _ Hp), Hpl.
  destruct (is_terminal (piles n')); [done|].
  assert (forall x, x ∈ minimax_plain fuel <$> generate_children n
                    <-> x ∈ minimax_plain fuel <$> generate_children n')
    as Hsame.
  { intros x. rewrite !list_elem_of_fmap. split.
    - intros (c & -> & Hc).
      destruct (children_perm n n' c Hp Hpl Hc) as (c' & Hc' & Hcp & Hcpl).
      exists c'. split; [by apply IH | done].
    - intros (c & -> & Hc).
      destruct (children_perm n' n c (symmetry Hp) (eq_sym Hpl) Hc)
        as (c' & Hc' & Hcp & Hcpl).
      exists c'. split; [by apply IH | done]. }
  destruct (player n' =? 2).
  - by apply foldl_max_same_elems.
  - by apply foldl_min_same_elems.
Qed.

Lemma game_value_perm n n' :
  piles n ≡ₚ piles n' -> player n = player n' -> game_value n = game_value n'.
Proof.
  intros Hp Hpl. unfold game_value. rewrite (total_perm _ _ Hp).
  by apply minimax_plain_perm.
Qed.

(** Equal keys, equal values: what the memo table relies on. *)
Lemma game_value_key n n' :
  key_of (piles n) (player n) = key_of (piles n') (player n') ->
  game_value n = game_value n'.
Proof. intros [Hp Hpl]%key_of_inj. by apply game_value_perm. Qed.

End Value.

(** * The memo table *)

Section Memo.

Lemma memo_sound_empty : memo_sound ∅.
Proof. intros node v. by rewrite lookup_empty. Qed.

Lemma memo_sound_insert memo node :
  memo_sound memo ->
  memo_sound (<[key_of (piles node) (player node) := game_value node]> memo).
Proof.
  intros Hm node' v. rewrite lookup_insert.
  case_decide as Hk.
  - intros [= <-]. by apply game_value_key.
  - apply Hm.
Qed.

Lemma score_loop_sound pick ev cs best memo b memo' :
  (forall c m v m',
     memo_sound m -> ev c m = Some (v, m') ->
     v = game_value c /\ memo_sound m') ->
  memo_sound memo ->
  score_loop pick ev cs best memo = Some (b, memo') ->
  b = foldl pick best (game_value <$> cs) /\ memo_sound memo'.
Proof.
  intros Hev. revert best memo.
  induction cs as [|c cs IH]; intros best memo Hm; simpl.
  - by intros [= <- <-].
  - destruct (ev c memo) as [[v m1]|] eqn:Hc; [|done].
    destruct (Hev _ _ _ _ Hm Hc) as [-> Hm1]. by apply IH.
Qed.

(** Whatever [minimax] returns from a sound table is the value of the state,
    and the table it leaves is sound. *)
Lemma minimax_sound fuel node memo v memo' :
  memo_sound memo ->
  minimax fuel node memo = Some (v, memo') ->
  v = game_value node /\ memo_sound memo'.
Proof.
  revert node memo v memo'.
  induction fuel as [|fuel IH]; intros node memo v memo' Hm; [done|].
  simpl. pose proof (game_value_unfold node) as Hv.
  destruct (is_terminal (piles node)); [by intros [= <- <-]|].
  destruct (memo !! _) as [cached|] eqn:Hlook.
  { intros [= <- <-]. split; [by apply Hm | done]. }
  destruct (player node =? 2).
  - destruct (score_loop _ _ _ _ _) as [[b m1]|] eqn:Hloop; [|done].
    intros [= <- <-].
    apply (score_loop_sound Z.max) in Hloop as [-> Hm1]; [|apply IH|done].
    rewrite <-Hv. split; [done|]. by apply memo_sound_insert.
  - destruct (score_loop _ _ _ _ _) as [[b m1]|] eqn:Hloop; [|done].
    intros [= <- <-].
    apply (score_loop_sound Z.min) in Hloop as [-> Hm1]; [|apply IH|done].
    rewrite <-Hv. split; [done|]. by apply memo_sound_insert.
Qed.

Lemma populated_sound memo : populated memo -> memo_sound memo.
Proof.
  induction 1 as [|fuel node memo v memo' _ IH Hrun].
  - apply memo_sound_empty.
  - by destruct (minimax_sound _ _ _ _ _ IH Hrun).
Qed.

(** With a budget above the number of objects, the evaluator returns the
    value of the state, from any table built by prior evaluations. *)
Lemma minimax_game_value fuel node memo :
  populated memo -> (total (piles node) < fuel)%nat ->
  exists memo',
    minimax fuel node memo = Some (game_value node, memo')
    /\ populated memo'.
Proof.
  intros Hpop Hfuel.
  destruct (minimax_is_Some fuel node memo Hfuel) as [[v memo'] Hrun].
  exists memo'.
  destruct (minimax_sound _ _ _ _ _ (populated_sound _ Hpop) Hrun) as [-> _].
  split; [done|]. by eapply populated_minimax.
Qed.

Lemma scores_game_value node v : scores node v <-> v = game_value node.
Proof.
  split.
  - intros (fuel & memo & memo' & Hpop & Hrun).
    by destruct (minimax_sound _ _ _ _ _ (populated_sound _ Hpop) Hrun).
  - intros ->. exists (S (total (piles node))), ∅.
    destruct (minimax_game_value (S (total (piles node))) node ∅)
      as (memo' & Hrun & _); [constructor | lia |].
    exists memo'. split; [constructor | done].
Qed.

End Memo.

(** * Nim-sums *)

Section NimSum.

Lemma nim_sum_nonneg p : Forall (fun x => 0 <= x) p -> 0 <= nim_sum p.
Proof.
  induction 1 as [|x p Hx _ IH]; simpl; [done|]. by apply Z.lxor_nonneg.
Qed.

Lemma nim_sum_terminal p : is_terminal p = true -> nim_sum p = 0.
Proof.
  rewrite is_terminal_Forall. induction 1 as [|x p -> _ IH]; simpl; [done|].
  by rewrite IH.
Qed.

Lemma nim_sum_insert p i v w :
  p !! i = Some v ->
  nim_sum (<[i := w]> p) = Z.lxor (nim_sum p) (Z.lxor v w).
Proof.
  revert i. induction p as [|x p IH]; intros [|i] Hi; simplify_eq/=.
  - xor_bits.
  - rewrite (IH _ Hi). xor_bits.
Qed.

Lemma nim_sum_testbit p k :
  Z.testbit (nim_sum p) k = true ->
  exists (i : nat) v, p !! i = Some v /\ Z.testbit v k = true.
Proof.
  induction p as [|x p IH]; simpl.
  - by rewrite Z.bits_0.
  - rewrite Z.lxor_spec. destruct (Z.testbit x k) eqn:Hx.
    + intros _. by exists 0%nat, x.
    + simpl. intros (i & v & Hi & Hv)%IH. by exists (S i), v.
Qed.

(** Flipping in [v] the bits of [s] lowers [v] when the top bit of [s] is
    set in [v]. *)
Lemma lxor_top_bit_lt v s :
  0 <= v -> 0 < s -> Z.testbit v (Z.log2 s) = true -> Z.lxor v s < v.
Proof.
  intros Hv Hs Hbit. set (k := Z.log2 s) in *.
  assert (0 <= k) as Hk by apply Z.log2_nonneg.
  set (w := Z.lxor v s).
  assert (0 <= w) as Hw by (apply Z.lxor_nonneg; lia).
  assert (Z.testbit w k = false) as Hwbit.
  { unfold w. rewrite Z.lxor_spec, Hbit. unfold k. by rewrite Z.bit_log2. }
  assert (Z.shiftr w (k + 1) = Z.shiftr v (k + 1)) as Hhigh.
  { unfold w. rewrite Z.shiftr_lxor.
    rewrite (Z.shiftr_eq_0 s) by (unfold k; lia). apply Z.lxor_0_r. }
  rewrite !Z.shiftr_div_pow2 in Hhigh by lia.
  rewrite Z.pow_add_r, Z.pow_1_r in Hhigh by lia.
  rewrite <-!Z.div_div in Hhigh by lia.
  pose proof (Z.testbit_spec' v k Hk) as Hv2.
  pose proof (Z.testbit_spec' w k Hk) as Hw2.
  rewrite Hbit in Hv2. rewrite Hwbit in Hw2. simpl in Hv2, Hw2.
  assert (w / 2 ^ k < v / 2 ^ k) as Hlt.
  { generalize dependent (w / 2 ^ k). generalize dependent (v / 2 ^ k).
    intros a Ha b Hab Hb. clear -Ha Hab Hb.
    Z.div_mod_to_equations. lia. }
  destruct (Z_lt_le_dec w v) as [|Hge]; [done|].
  assert (0 < 2 ^ k) by (apply Z.pow_pos_nonneg; lia).
  pose proof (Z.div_le_mono v w (2 ^ k)). lia.
Qed.

(** From a board of nim-sum zero every move leaves a non-zero nim-sum. *)
Lemma nim_sum_zero_moves p i v take :
  nim_sum p = 0 -> p !! i = Some v -> 1 <= take ->
  nim_sum (<[i := v - take]> p) <> 0.
Proof.
  intros Hs Hi Ht. rewrite (nim_sum_insert p i v _ Hi), Hs, Z.lxor_0_l.
  intros Heq%Z.lxor_eq. lia.
Qed.

(** From a board of non-zero nim-sum some move reaches nim-sum zero. *)
Lemma nim_sum_nonzero_move p :
  Forall (fun x => 0 <= x) p -> nim_sum p <> 0 ->
  exists (i : nat) v take,
    p !! i = Some v /\ 1 <= take <= v /\ nim_sum (<[i := v - take]> p) = 0.
Proof.
  intros Hnn Hs. pose proof (nim_sum_nonneg p Hnn) as Hs0.
  assert (0 < nim_sum p) as Hpos by lia.
  destruct (nim_sum_testbit p (Z.log2 (nim_sum p))) as (i & v & Hi & Hbit).
  { by apply Z.bit_log2. }
  assert (0 <= v) as Hv.
  { rewrite Forall_lookup in Hnn. by apply (Hnn i). }
  pose proof (lxor_top_bit_lt v (nim_sum p) Hv Hpos Hbit) as Hlt.
  assert (0 <= Z.lxor v (nim_sum p)) as Hw by (apply Z.lxor_nonneg; lia).
  exists i, v, (v - Z.lxor v (nim_sum p)). split; [done|]. split; [lia|].
  rewrite (nim_sum_insert p i v _ Hi).
  replace (v - (v - Z.lxor v (nim_sum p))) with (Z.lxor v (nim_sum p)) by lia.
  xor_bits.
Qed.

End NimSum.

(** * The value of a Nim position *)

Section NimValue.

Lemma foldl_max_pm1 (l : list Z) :
  l <> [] -> Forall (fun x => x = -1 \/ x = 1) l ->
  foldl Z.max INT_MIN l = (if decide (1 ∈ l) then 1 else -1).
Proof.
  intros Hne Hall.
  destruct (foldl_max_spec INT_MIN l) as (Hin & _ & Hle).
  rewrite Forall_forall in Hall, Hle.
  destruct l as [|x l]; [done|].
  assert (-1 <= foldl Z.max INT_MIN (x :: l)) as Hlow.
  { specialize (Hle x ltac:(left)). specialize (Hall x ltac:(left)). lia. }
  destruct Hin as [Heq | Hin]; [unfold INT_MIN in *; lia|].
  case_decide as H1.
  - specialize (Hle 1 H1). specialize (Hall _ Hin). lia.
  - destruct (Hall _ Hin) as [Hm | Hm]; [done|]. by rewrite Hm in Hin.
Qed.

Lemma foldl_min_pm1 (l : list Z) :
  l <> [] -> Forall (fun x => x = -1 \/ x = 1) l ->
  foldl Z.min INT_MAX l = (if decide (-1 ∈ l) then -1 else 1).
Proof.
  intros Hne Hall.
  destruct (foldl_min_spec INT_MAX l) as (Hin & _ & Hle).
  rewrite Forall_forall in Hall, Hle.
  destruct l as [|x l]; [done|].
  assert (foldl Z.min INT_MAX (x :: l) <= 1) as Hhigh.
  { specialize (Hle x ltac:(left)). specialize (Hall x ltac:(left)). lia. }
  destruct Hin as [Heq | Hin]; [unfold INT_MAX in *; lia|].
  case_decide as H1.
  - specialize (Hle (-1) H1). specialize (Hall _ Hin). lia.
  - destruct (Hall _ Hin) as [Hm | Hm]; [|done]. by rewrite Hm in Hin.
Qed.

Lemma generate_children_nonempty node :
  Forall (fun x => 0 <= x) (piles node) ->
  is_terminal (piles node) = false ->
  generate_children node <> [].
Proof.
  intros Hnn Ht.
  destruct (generate_children_first node Hnn Ht) as (i & v & cs & _ & _ & ->).
  done.
Qed.

(** Every value is a win or a loss: the sentinels never come out. *)
Lemma game_value_pm1 node :
  Forall (fun x => 0 <= x) (piles node) ->
  game_value node = -1 \/ game_value node = 1.
Proof.
  remember (total (piles node)) as n eqn:Hn. revert node Hn.
  induction (lt_wf n) as [n _ IH]. intros node -> Hnn.
  rewrite game_value_unfold.
  destruct (is_terminal (piles node)) eqn:Hterm.
  { unfold terminal_score. destruct (player node =? 2); auto. }
  assert (Forall (fun x => x = -1 \/ x = 1)
            (game_value <$> generate_children node)) as Hall.
  { apply Forall_fmap, Forall_forall. intros c Hc. simpl.
    eapply IH; [by apply child_total | done | by eapply child_nonneg]. }
  assert (game_value <$> generate_children node <> []) as Hne.
  { intros Heq%fmap_nil_inv. by eapply generate_children_nonempty. }
  destruct (player node =? 2).
  - rewrite (foldl_max_pm1 _ Hne Hall). case_decide; auto.
  - rewrite (foldl_min_pm1 _ Hne Hall). case_decide; auto.
Qed.

(** Bouton's theorem for this evaluator: the player to move loses exactly
    on the boards of nim-sum zero. *)
Lemma game_value_nim p :
  Forall (fun x => 0 <= x) p ->
  game_value (mkNode p AI) = (if nim_sum p =? 0 then -1 else 1)
  /\ game_value (mkNode p HUMAN) = (if nim_sum p =? 0 then 1 else -1).
Proof.
  remember (total p) as n eqn:Hn. revert p Hn.
  induction (lt_wf n) as [n _ IH]. intros p -> Hnn.
  rewrite !game_value_unfold. simpl piles. simpl player.
  destruct (is_terminal p) eqn:Hterm.
  { rewrite (nim_sum_terminal p Hterm). done. }
  assert (forall pl c, c ∈ generate_children (mkNode p pl) ->
            (total (piles c) < total p)%nat
            /\ Forall (fun x => 0 <= x) (piles c))
    as Hchild.
  { intros pl c Hc. split; [by apply child_total in Hc|].
    by eapply child_nonneg in Hc. }
  assert (forall pl, Forall (fun x => x = -1 \/ x = 1)
            (game_value <$> generate_children (mkNode p pl))) as Hall.
  { intros pl. apply Forall_fmap, Forall_forall. intros c Hc.
    apply game_value_pm1. by apply (Hchild pl). }
  assert (forall pl, game_value <$> generate_children (mkNode p pl) <> [])
    as Hne.
  { intros pl Heq%fmap_nil_inv.
    by eapply (generate_children_nonempty (mkNode p pl)). }
  change (AI =? 2) with true. change (HUMAN =? 2) with false. cbv iota.
  rewrite (foldl_max_pm1 _ (Hne AI) (Hall AI)).
  rewrite (foldl_min_pm1 _ (Hne HUMAN) (Hall HUMAN)).
  destruct (Z.eqb_spec (nim_sum p) 0) as [Hs | Hs].
  - (* nim-sum zero: every child is a win for the player who moves next *)
    split; case_decide as Hin; try done; exfalso.
    + apply list_elem_of_fmap in Hin as (c & Hv & Hc).
      destruct (Hchild _ _ Hc) as [Hlt Hcnn].
      apply elem_of_generate_children in Hc as (i & v & take & Hi & Ht & ->).
      change (child_of (mkNode p AI) i v take)
        with (mkNode (<[i := v - take]> p) HUMAN) in *.
      simpl in Hlt, Hcnn.
      destruct (IH _ Hlt _ eq_refl Hcnn) as [_ Hhuman].
      rewrite Hhuman in Hv. simpl in Hv.
      pose proof (nim_sum_zero_moves p i v take Hs Hi ltac:(lia)) as Hnz.
      destruct (Z.eqb_spec (nim_sum (<[i := v - take]> p)) 0); done.
    + apply list_elem_of_fmap in Hin as (c & Hv & Hc).
      destruct (Hchild _ _ Hc) as [Hlt Hcnn].
      apply elem_of_generate_children in Hc as (i & v & take & Hi & Ht & ->).
      change (child_of (mkNode p HUMAN) i v take)
        with (mkNode (<[i := v - take]> p) AI) in *.
      simpl in Hlt, Hcnn.
      destruct (IH _ Hlt _ eq_refl Hcnn) as [Hai _].
      rewrite Hai in Hv. simpl in Hv.
      pose proof (nim_sum_zero_moves p i v take Hs Hi ltac:(lia)) as Hnz.
      destruct (Z.eqb_spec (nim_sum (<[i := v - take]> p)) 0); done.
  - (* nim-sum non-zero: the move to nim-sum zero wins *)
    destruct (nim_sum_nonzero_move p Hnn Hs) as (i & v & take & Hi & Ht & Hz).
    split; case_decide as Hin; try done; exfalso; apply Hin.
    + apply list_elem_of_fmap. exists (child_of (mkNode p AI) i v take).
      assert (child_of (mkNode p AI) i v take
                ∈ generate_children (mkNode p AI)) as Hc.
      { apply elem_of_generate_children. by exists i, v, take. }
      split; [|done]. destruct (Hchild _ _ Hc) as [Hlt Hcnn].
      change (child_of (mkNode p AI) i v take)
        with (mkNode (<[i := v - take]> p) HUMAN) in *.
      simpl in Hlt, Hcnn.
      destruct (IH _ Hlt _ eq_refl Hcnn) as [_ Hhuman].
      rewrite Hhuman. simpl. by rewrite Hz.
    + apply list_elem_of_fmap. exists (child_of (mkNode p HUMAN) i v take).
      assert (child_of (mkNode p HUMAN) i v take
                ∈ generate_children (mkNode p HUMAN)) as Hc.
      { apply elem_of_generate_children. by exists i, v, take. }
      split; [|done]. destruct (Hchild _ _ Hc) as [Hlt Hcnn].
      change (child_of (mkNode p HUMAN) i v take)
        with (mkNode (<[i := v - take]> p) AI) in *.
      simpl in Hlt, Hcnn.
      destruct (IH _ Hlt _ eq_refl Hcnn) as [Hai _].
      rewrite Hai. simpl. by rewrite Hz.
Qed.

End NimValue.

(** * The move selector *)

Section Selector.

(** The board [best_ai_move] is called on, and the depth budget of its
    calls to [minimax]. *)
Variable board : list Z.
Variable fuel : nat.
Hypothesis board_nonneg : Forall (fun x => 0 <= x) board.
Hypothesis fuel_enough : (total board <= fuel)%nat.

Lemma diff_loop_insert (l : list Z) i v w k bestMove :
  l !! i = Some v -> w <> v ->
  diff_loop l (<[i := w]> l) k bestMove = (k + Z.of_nat i, v - w).
Proof.
  revert i k. induction l as [|x l IH]; intros [|i] k Hi Hw; simplify_eq/=.
  - destruct (Z.eqb_spec w v); [done|]. simpl. f_equal. lia.
  - rewrite Z.eqb_refl. simpl. rewrite (IH i (k + 1)) by done. f_equal. lia.
Qed.

(** The diff of a child against the board is the move that made it. *)
Lemma diff_loop_child pl c bestMove :
  c ∈ generate_children (mkNode board pl) ->
  legal_move board (diff_loop board (piles c) 0 bestMove).
Proof.
  intros (i & v & take & Hi & Ht & ->)%elem_of_generate_children.
  simpl in *. rewrite (diff_loop_insert board i v) by (done || lia).
  exists v. simpl. rewrite Z.add_0_l, Nat2Z.id.
  split; [lia|]. split; [done | lia].
Qed.

(** The selection loop keeps a legal move once it has one, and takes one
    from the first child when the best score is still below every score. *)
Lemma select_loop_legal cs bestScore bestMove memo :
  populated memo ->
  (forall c, c ∈ cs -> c ∈ generate_children (mkNode board 2)) ->
  legal_move board bestMove \/ (bestScore < -1 /\ cs <> []) ->
  exists mv,
    select_loop (minimax fuel) board cs bestScore bestMove memo = Some mv
    /\ legal_move board mv.
Proof.
  revert bestScore bestMove memo.
  induction cs as [|c cs IH]; intros bestScore bestMove memo Hpop Hcs Hbest.
  - simpl. exists bestMove. split; [done|]. by destruct Hbest as [?|[_ ?]].
  - simpl. assert (c ∈ generate_children (mkNode board 2)) as Hc.
    { apply Hcs. left. }
    destruct (minimax_game_value fuel c memo Hpop) as (memo' & -> & Hpop').
    { apply child_total in Hc. simpl in Hc. lia. }
    assert (game_value c = -1 \/ game_value c = 1) as Hval.
    { apply game_value_pm1. by eapply child_nonneg in Hc. }
    destruct (Z.gtb_spec (game_value c) bestScore) as [Hgt | Hle].
    + apply IH; [done | |].
      * intros c' Hc'. apply Hcs. by right.
      * left. by eapply diff_loop_child.
    + apply IH; [done | |].
      * intros c' Hc'. apply Hcs. by right.
      * left. destruct Hbest as [? | [? _]]; [done | lia].
Qed.

End Selector.

(** * The properties of the specification *)

(** C1. On a board of non-negative piles the evaluator, given a depth budget
    above the number of objects and a table built by prior evaluations,
    returns the score that the nim-sum predicts: with the AI to move, [-1]
    when the nim-sum is zero and [+1] otherwise; with the human to move,
    [+1] when the nim-sum is zero and [-1] otherwise. *)
Theorem minimax_nim_sum fuel p memo :
  Forall (fun x => 0 <= x) p ->
  populated memo ->
  (total p < fuel)%nat ->
  (exists memo', minimax fuel (mkNode p AI) memo
                 = Some (if nim_sum p =? 0 then -1 else 1, memo'))
  /\ (exists memo', minimax fuel (mkNode p HUMAN) memo
                    = Some (if nim_sum p =? 0 then 1 else -1, memo')).
Proof.
  intros Hnn Hpop Hfuel. destruct (game_value_nim p Hnn) as [Hai Hhuman].
  split.
  - destruct (minimax_game_value fuel (mkNode p AI) memo Hpop Hfuel)
      as (memo' & Hrun & _).
    exists memo'. by rewrite Hrun, Hai.
  - destruct (minimax_game_value fuel (mkNode p HUMAN) memo Hpop Hfuel)
      as (memo' & Hrun & _).
    exists memo'. by rewrite Hrun, Hhuman.
Qed.

Lemma minimax_nim_sum_witness :
  (exists memo', minimax 13 (mkNode [3; 4; 5] AI) ∅ = Some (1, memo'))
  /\ (exists memo', minimax 13 (mkNode [3; 4; 5] HUMAN) ∅ = Some (-1, memo')).
Proof.
  apply (minimax_nim_sum 13 [3; 4; 5] ∅);
    [nonneg_list | apply populated_empty | simpl; lia].
Defined.

(** C2. On a board whose piles are all zero, the empty board included, the
    evaluator returns [-1] with the AI to move and [+1] with the human to
    move, whatever the table holds; it leaves the table as it was, and one
    activation is enough (the budget [S fuel] may be [1]), so it does not
    recurse. *)
Theorem minimax_terminal fuel p memo :
  Forall (fun x => x = 0) p ->
  minimax (S fuel) (mkNode p AI) memo = Some (-1, memo)
  /\ minimax (S fuel) (mkNode p HUMAN) memo = Some (1, memo).
Proof.
  intros Hz%is_terminal_Forall. simpl. by rewrite Hz.
Qed.

Lemma minimax_terminal_witness :
  minimax 1 (mkNode [] AI) ∅ = Some (-1, ∅)
  /\ minimax 1 (mkNode [] HUMAN) ∅ = Some (1, ∅).
Proof. apply (minimax_terminal 0 [] ∅). apply List.Forall_nil. Defined.

(** C3. On a board of non-negative piles with a non-zero pile,
    [best_ai_move], given a depth budget above the number of objects,
    returns a pair [(i, a)] where [i] is an index of the board and
    [1 <= a <= board[i]]. *)
Theorem best_ai_move_legal fuel board :
  Forall (fun x => 0 <= x) board ->
  Exists (fun x => x <> 0) board ->
  (total board < fuel)%nat ->
  exists i a v,
    best_ai_move fuel board = Some (i, a)
    /\ 0 <= i /\ board !! Z.to_nat i = Some v /\ 1 <= a <= v.
Proof.
  intros Hnn Hex%is_terminal_false_Exists Hfuel. unfold best_ai_move.
  destruct (minimax_game_value fuel (mkNode board 2) ∅)
    as (memo & -> & Hpop); [constructor | done |].
  destruct (select_loop_legal board fuel Hnn ltac:(lia)
              (generate_children (mkNode board 2)) INT_MIN (-1, -1) memo)
    as ([i a] & -> & v & Hi & Hv & Ha); [done | done | | by exists i, a, v].
  right. split; [done|]. by apply generate_children_nonempty.
Qed.

Lemma best_ai_move_legal_witness :
  exists i a v,
    best_ai_move 13 [3; 4; 5] = Some (i, a)
    /\ 0 <= i /\ [3; 4; 5] !! Z.to_nat i = Some v /\ 1 <= a <= v.
Proof.
  apply (best_ai_move_legal 13 [3; 4; 5]);
    [nonneg_list | apply List.Exists_cons_hd; lia | simpl; lia].
Defined.

(** C4. [key_of] gives a permutation of the piles the same key, for the same
    player.  (It is a function of its arguments, defined on every board.) *)
Theorem key_of_permutation p q pl : p ≡ₚ q -> key_of p pl = key_of q pl.
Proof. apply key_of_perm. Qed.

Lemma key_of_permutation_witness : key_of [3; 4; 5] AI = key_of [5; 3; 4] AI.
Proof.
  apply (key_of_permutation [3; 4; 5] [5; 3; 4] AI).
  apply (@Permutation_cons_app Z [4; 5] [5] [4] 3).
  apply perm_swap.
Defined.

(** C5. On a non-terminal board of non-negative piles the evaluator returns
    a score [v] such that some child scores [v] and, with the AI to move, no
    child scores more, with the human to move, no child scores less; the
    scores of the children are those the evaluator returns for them. *)
Theorem minimax_children_extremum fuel node memo :
  Forall (fun x => 0 <= x) (piles node) ->
  is_terminal (piles node) = false ->
  populated memo ->
  (total (piles node) < fuel)%nat ->
  exists v memo',
    minimax fuel node memo = Some (v, memo')
    /\ (forall c, c ∈ generate_children node -> exists vc, scores c vc)
    /\ (exists c, c ∈ generate_children node /\ scores c v)
    /\ (player node = AI ->
        forall c vc, c ∈ generate_children node -> scores c vc -> vc <= v)
    /\ (player node = HUMAN ->
        forall c vc, c ∈ generate_children node -> scores c vc -> v <= vc).
Proof.
  intros Hnn Hterm Hpop Hfuel.
  destruct (minimax_game_value fuel node memo Hpop Hfuel)
    as (memo' & Hrun & _).
  exists (game_value node), memo'. split; [done|].
  split. { intros c _. exists (game_value c). by apply scores_game_value. }
  pose proof (game_value_unfold node) as Hv. rewrite Hterm in Hv.
  set (l := game_value <$> generate_children node) in *.
  assert (l <> []) as Hne.
  { intros Heq%fmap_nil_inv. by eapply generate_children_nonempty. }
  assert (Forall (fun x => x = -1 \/ x = 1) l) as Hall.
  { apply Forall_fmap, Forall_forall. intros c Hc.
    apply game_value_pm1. by eapply child_nonneg. }
  destruct (foldl_max_spec INT_MIN l) as (Hmax_in & _ & Hmax).
  destruct (foldl_min_spec INT_MAX l) as (Hmin_in & _ & Hmin).
  rewrite Forall_forall in Hmax, Hmin.
  assert (game_value node ∈ l) as Hin.
  { destruct (player node =? 2); rewrite Hv.
    - destruct Hmax_in as [Heq | ?]; [|done].
      rewrite (foldl_max_pm1 l Hne Hall) in Heq. by case_decide.
    - destruct Hmin_in as [Heq | ?]; [|done].
      rewrite (foldl_min_pm1 l Hne Hall) in Heq. by case_decide. }
  split.
  { apply list_elem_of_fmap in Hin as (c & Hc & Hcin).
    exists c. split; [done|]. by apply scores_game_value. }
  split.
  - intros Hpl c vc Hc ->%scores_game_value.
    rewrite Hpl in Hv. change (AI =? 2) with true in Hv. rewrite Hv.
    apply Hmax. by apply list_elem_of_fmap_2.
  - intros Hpl c vc Hc ->%scores_game_value.
    rewrite Hpl in Hv. change (HUMAN =? 2) with false in Hv. rewrite Hv.
    apply Hmin. by apply list_elem_of_fmap_2.
Qed.

Lemma minimax_children_extremum_witness :
  exists v memo',
    minimax 4 (mkNode [1; 2] AI) ∅ = Some (v, memo')
    /\ (forall c, c ∈ generate_children (mkNode [1; 2] AI) ->
        exists vc, scores c vc)
    /\ (exists c, c ∈ generate_children (mkNode [1; 2] AI) /\ scores c v)
    /\ (AI = AI -> forall c vc,
          c ∈ generate_children (mkNode [1; 2] AI) -> scores c vc -> vc <= v)
    /\ (AI = HUMAN -> forall c vc,
          c ∈ generate_children (mkNode [1; 2] AI) -> scores c vc -> v <= vc).
Proof.
  apply (minimax_children_extremum 4 (mkNode [1; 2] AI) ∅);
    [simpl; nonneg_list | reflexivity | apply populated_empty | simpl; lia].
Defined.

(** C6. From any table built by prior evaluations, and with a depth budget
    above the number of objects, the memoised evaluator returns what plain
    recursive minimax without a table returns, and the table it leaves is
    again one built by evaluations. *)
Theorem minimax_memo_refinement fuel node memo :
  populated memo ->
  (total (piles node) < fuel)%nat ->
  exists memo',
    minimax fuel node memo = Some (minimax_plain fuel node, memo')
    /\ populated memo'.
Proof.
  intros Hpop Hfuel. rewrite (game_value_fuel fuel node Hfuel).
  by apply minimax_game_value.
Qed.

Lemma minimax_memo_refinement_witness :
  exists memo',
    minimax 4 (mkNode [2; 1] HUMAN) ∅
    = Some (minimax_plain 4 (mkNode [2; 1] HUMAN), memo')
    /\ populated memo'.
Proof.
  apply (minimax_memo_refinement 4 (mkNode [2; 1] HUMAN) ∅);
    [apply populated_empty | simpl; lia].
Defined.

(** C7. [generate_children] yields the children in the order the
    specification gives: piles by ascending index, for each pile of value
    [v] the takes [1..v] ascending, none for a pile of value zero.  Each
    child has the pile reduced by the take, the other piles unchanged and
    the other player to move.  A terminal board has no children. *)
Theorem generate_children_spec node :
  generate_children node = mjoin (moves_of node)
  /\ (forall c, c ∈ generate_children node ->
      exists (i : nat) v take,
        piles node !! i = Some v /\ 0 < v /\ 1 <= take <= v
        /\ length (piles c) = length (piles node)
        /\ piles c !! i = Some (v - take)
        /\ (forall j : nat, j <> i -> piles c !! j = piles node !! j)
        /\ player c = next_player (player node))
  /\ next_player HUMAN = AI /\ next_player AI = HUMAN
  /\ (is_terminal (piles node) = true -> generate_children node = []).
Proof.
  split; [apply generate_children_moves|].
  split; [|split; [done|split; [done|apply generate_children_terminal]]].
  intros c (i & v & take & Hi & Ht & ->)%elem_of_generate_children.
  exists i, v, take. simpl.
  split; [done|]. split; [lia|]. split; [done|].
  split; [apply length_insert|].
  split; [apply list_lookup_insert_eq; by eapply lookup_lt_Some|].
  split; [|done]. intros j Hj. by apply list_lookup_insert_ne.
Qed.

Lemma generate_children_spec_witness :
  generate_children (mkNode [0; 0; 0] AI) = [].
Proof.
  apply (generate_children_spec (mkNode [0; 0; 0] AI)). reflexivity.
Defined.

(** C8. On a board of non-negative piles the evaluator returns [-1] or [+1],
    never a sentinel: a non-terminal board has a child. *)
Theorem minimax_score_range fuel node memo :
  Forall (fun x => 0 <= x) (piles node) ->
  populated memo ->
  (total (piles node) < fuel)%nat ->
  (exists v memo',
     minimax fuel node memo = Some (v, memo') /\ (v = -1 \/ v = 1))
  /\ (is_terminal (piles node) = false -> generate_children node <> []).
Proof.
  intros Hnn Hpop Hfuel. split.
  - destruct (minimax_game_value fuel node memo Hpop Hfuel)
      as (memo' & Hrun & _).
    exists (game_value node), memo'. split; [done|]. by apply game_value_pm1.
  - by apply generate_children_nonempty.
Qed.

Lemma minimax_score_range_witness :
  (exists v memo',
     minimax 6 (mkNode [2; 0; 3] HUMAN) ∅ = Some (v, memo')
     /\ (v = -1 \/ v = 1))
  /\ (is_terminal [2; 0; 3] = false ->
      generate_children (mkNode [2; 0; 3] HUMAN) <> []).
Proof.
  apply (minimax_score_range 6 (mkNode [2; 0; 3] HUMAN) ∅);
    [simpl; nonneg_list | apply populated_empty | simpl; lia].
Defined.

(** C9. The evaluation terminates: with a depth budget above the number of
    objects on the board it returns, whatever the table holds, because every
    child has fewer objects than its parent.  From an empty table on
    non-negative piles the bound is reached: a budget of no more than the
    number of objects is exhausted. *)
Theorem minimax_depth fuel node :
  (forall memo,
     (total (piles node) < fuel)%nat -> is_Some (minimax fuel node memo))
  /\ (forall c, c ∈ generate_children node ->
      (total (piles c) < total (piles node))%nat)
  /\ (Forall (fun x => 0 <= x) (piles node) ->
      (minimax fuel node ∅ = None <-> (fuel <= total (piles node))%nat)).
Proof.
  split; [intros memo; apply minimax_is_Some|].
  split; [intros c; apply child_total|].
  intros Hnn. split.
  - intros Hnone. destruct (le_lt_dec fuel (total (piles node))); [done|].
    destruct (minimax_is_Some fuel node ∅) as [r Hr]; [done|]. congruence.
  - by apply minimax_empty_None.
Qed.

Lemma minimax_depth_witness :
  is_Some (minimax 8 (mkNode [3; 4] AI) ∅)
  /\ minimax 7 (mkNode [3; 4] AI) ∅ = None.
Proof.
  split.
  - apply (minimax_depth 8 (mkNode [3; 4] AI)). simpl; lia.
  - apply (minimax_depth 7 (mkNode [3; 4] AI)); [simpl; nonneg_list|].
    simpl; lia.
Defined.

(** C10. On a terminal board [best_ai_move] does not fail: the board has no
    children, so the selection loop has nothing to run on, and the result is
    the pair [(-1, -1)] the move was initialised with. *)
Theorem best_ai_move_terminal fuel board :
  Forall (fun x => x = 0) board ->
  generate_children (mkNode board AI) = []
  /\ best_ai_move (S fuel) board = Some (-1, -1).
Proof.
  intros Hz%is_terminal_Forall.
  pose proof (generate_children_terminal (mkNode board AI) Hz) as Hcs.
  split; [done|]. unfold best_ai_move. simpl minimax. simpl piles.
  rewrite Hz. change 2 with AI. by rewrite Hcs.
Qed.

Lemma best_ai_move_terminal_witness :
  generate_children (mkNode [0; 0; 0] AI) = []
  /\ best_ai_move 1 [0; 0; 0] = Some (-1, -1).
Proof.
  apply (best_ai_move_terminal 0 [0; 0; 0]).
  repeat first [apply List.Forall_nil | apply List.Forall_cons; [reflexivity|]].
Defined.

(** * What the evaluator does to the memo table *)

Section MemoGrowth.

Lemma grows_below_refl bound memo : grows_below bound memo memo.
Proof.
  split; [done|]. intros k Hk [v Hv]. congruence.
Qed.

Lemma grows_below_trans bound m1 m2 m3 :
  grows_below bound m1 m2 -> grows_below bound m2 m3 ->
  grows_below bound m1 m3.
Proof.
  intros [H12 N12] [H23 N23]. split; [by etrans|].
  intros k Hk Hs. destruct (m2 !! k) as [v|] eqn:H2.
  - apply N12; [done | by eexists].
  - by apply N23.
Qed.

Lemma grows_below_mono b1 b2 m1 m2 :
  (b1 <= b2)%nat -> grows_below b1 m1 m2 -> grows_below b2 m1 m2.
Proof.
  intros Hb [Hsub Hnew]. split; [done|].
  intros k Hk Hs. destruct (Hnew k Hk Hs) as (nd & ? & ? & ?).
  exists nd. repeat split; [done..|lia].
Qed.

(** A key added below [total (piles node)] is not the key of [node]. *)
Lemma grows_below_fresh node memo memo' :
  memo !! key_of (piles node) (player node) = None ->
  grows_below (total (piles node)) memo memo' ->
  memo' !! key_of (piles node) (player node) = None.
Proof.
  intros Hk [_ Hnew].
  destruct (memo' !! _) as [v|] eqn:Hv; [|done].
  destruct (Hnew _ Hk ltac:(by eexists)) as (nd & Heq & _ & Hlt).
  apply key_of_inj in Heq as [Hp _]. apply total_perm in Hp. lia.
Qed.

Lemma score_loop_grows pick ev cs best memo b memo' bound :
  (forall c m v m', c ∈ cs -> ev c m = Some (v, m') -> grows_below bound m m')
  -> score_loop pick ev cs best memo = Some (b, memo')
  -> grows_below bound memo memo'.
Proof.
  revert best memo. induction cs as [|c cs IH]; intros best memo Hev; simpl.
  - intros [= <- <-]. apply grows_below_refl.
  - destruct (ev c memo) as [[v m1]|] eqn:Hc; [|done]. intros Hloop.
    eapply grows_below_trans.
    + eapply Hev; [left | done].
    + eapply IH; [|done]. intros c' m v' m' Hc'. apply Hev. by right.
Qed.

Lemma minimax_grows fuel node memo v memo' :
  minimax fuel node memo = Some (v, memo') ->
  grows_below (S (total (piles node))) memo memo'.
Proof.
  revert node memo v memo'.
  induction fuel as [|fuel IH]; intros node memo v memo'; [done|].
  simpl. destruct (is_terminal (piles node)) eqn:Hterm.
  { intros [= <- <-]. apply grows_below_refl. }
  destruct (memo !! _) as [cached|] eqn:Hlook.
  { intros [= <- <-]. apply grows_below_refl. }
  assert (forall pick init b m1,
            score_loop pick (minimax fuel) (generate_children node) init memo
            = Some (b, m1) ->
            grows_below (S (total (piles node))) memo
              (<[key_of (piles node) (player node) := b]> m1)) as Hstep.
  { intros pick init b m1 Hloop.
    assert (grows_below (total (piles node)) memo m1) as Hg.
    { eapply score_loop_grows; [|done].
      intros c m v' m' Hc Hrun. eapply grows_below_mono; [|by eapply IH].
      apply child_total in Hc. lia. }
    pose proof (grows_below_fresh node memo m1 Hlook Hg) as Hfresh.
    eapply grows_below_trans.
    - eapply grows_below_mono; [|done]. lia.
    - split; [by apply insert_subseteq|].
      intros k Hk Hs. destruct (decide (k = key_of (piles node) (player node)))
        as [->|Hne].
      + exists node. repeat split; [done | lia].
      + rewrite lookup_insert_ne in Hs by done.
        destruct Hs as [x Hx]. congruence. }
  destruct (player node =? 2).
  - destruct (score_loop _ _ _ _ _) as [[b m1]|] eqn:Hloop; [|done].
    intros [= <- <-]. by eapply Hstep.
  - destruct (score_loop _ _ _ _ _) as [[b m1]|] eqn:Hloop; [|done].
    intros [= <- <-]. by eapply Hstep.
Qed.

(** After a call the score is in the table, for a non-terminal state. *)
Lemma minimax_stored fuel node memo v memo' :
  minimax fuel node memo = Some (v, memo') ->
  is_terminal (piles node) = false ->
  memo' !! key_of (piles node) (player node) = Some v.
Proof.
  destruct fuel as [|fuel]; [done|]. simpl. intros Hrun Hterm.
  rewrite Hterm in Hrun.
  destruct (memo !! _) as [cached|] eqn:Hlook.
  { by simplify_eq. }
  destruct (player node =? 2);
    destruct (score_loop _ _ _ _ _) as [[b m1]|]; simplify_eq;
    apply lookup_insert_eq.
Qed.

(** A state evaluated before is answered by one activation, from any later
    table. *)
Lemma minimax_replay fuel node memo v memo' later budget :
  minimax fuel node memo = Some (v, memo') ->
  memo' ⊆ later ->
  minimax (S budget) node later = Some (v, later).
Proof.
  intros Hrun Hsub. simpl.
  destruct (is_terminal (piles node)) eqn:Hterm.
  - destruct fuel as [|fuel]; [done|]. simpl in Hrun. rewrite Hterm in Hrun.
    by simplify_eq.
  - pose proof (minimax_stored _ _ _ _ _ Hrun Hterm) as Hst.
    by rewrite (lookup_weaken _ _ _ _ Hst Hsub).
Qed.

Lemma score_loop_subseteq pick fuel cs best memo b memo' :
  score_loop pick (minimax fuel) cs best memo = Some (b, memo') ->
  memo ⊆ memo'.
Proof.
  revert best memo. induction cs as [|c cs IH]; intros best memo; simpl.
  - by intros [= <- <-].
  - destruct (minimax fuel c memo) as [[v m1]|] eqn:Hc; [|done].
    intros Hloop. etrans; [|by eapply IH].
    by destruct (minimax_grows _ _ _ _ _ Hc).
Qed.

Lemma score_loop_replay pick fuel cs best memo b memo' budget :
  score_loop pick (minimax fuel) cs best memo = Some (b, memo') ->
  forall c, c ∈ cs ->
    exists vc, minimax (S budget) c memo' = Some (vc, memo').
Proof.
  revert best memo. induction cs as [|c cs IH]; intros best memo; simpl.
  - intros _ c Hc. by apply elem_of_nil in Hc.
  - destruct (minimax fuel c memo) as [[v m1]|] eqn:Hc; [|done].
    intros Hloop c' [Heq|Hc']%elem_of_cons.
    + subst c'. exists v. eapply minimax_replay; [done|].
      by eapply score_loop_subseteq.
    + by eapply IH.
Qed.

End MemoGrowth.

(** * Which move the selector returns *)

(** Diffing a board against itself with one pile changed finds that pile
    and the amount. *)
Lemma diff_loop_changed (l : list Z) (i : nat) (v w k : Z) (bestMove : Z * Z) :
  l !! i = Some v -> w <> v ->
  diff_loop l (<[i := w]> l) k bestMove = (k + Z.of_nat i, v - w).
Proof.
  revert i k. induction l as [|x l IH]; intros [|i] k Hi Hw.
  - done.
  - done.
  - simpl in *. injection Hi as ->.
    destruct (Z.eqb_spec w v); [done|]. simpl. f_equal. lia.
  - simpl in *. rewrite Z.eqb_refl. simpl.
    rewrite (IH i (k + 1)) by done. f_equal. lia.
Qed.

Section Selection.

Variable board : list Z.
Variable fuel : nat.
Hypothesis fuel_enough : (total board <= fuel)%nat.

(** The selection loop returns the move of the first child whose score is
    the largest, when some child scores above the initial best score. *)
Lemma select_loop_first_max cs bestScore bestMove memo :
  populated memo ->
  (forall c, c ∈ cs -> c ∈ generate_children (mkNode board 2)) ->
  exists mv,
    select_loop (minimax fuel) board cs bestScore bestMove memo = Some mv
    /\ ((Forall (fun c => game_value c <= bestScore) cs /\ mv = bestMove)
        \/ exists (k : nat) c,
             cs !! k = Some c
             /\ bestScore < game_value c
             /\ mv = diff_loop board (piles c) 0 (-1, -1)
             /\ (forall (j : nat) c', (j < k)%nat -> cs !! j = Some c' ->
                   game_value c' < game_value c)
             /\ Forall (fun c' => game_value c' <= game_value c) cs).
Proof.
  revert bestScore bestMove memo.
  induction cs as [|c cs IH]; intros bestScore bestMove memo Hpop Hcs.
  - simpl. exists bestMove. split; [done|]. left. by split.
  - simpl. assert (c ∈ generate_children (mkNode board 2)) as Hc.
    { apply Hcs. left. }
    destruct (minimax_game_value fuel c memo Hpop) as (memo' & -> & Hpop').
    { apply child_total in Hc. simpl in Hc. lia. }
    assert (forall c', c' ∈ cs -> c' ∈ generate_children (mkNode board 2))
      as Hcs' by (intros c' Hc'; apply Hcs; by right).
    destruct (Z.gtb_spec (game_value c) bestScore) as [Hgt | Hle].
    + destruct (IH (game_value c) (diff_loop board (piles c) 0 bestMove)
                  memo' Hpop' Hcs') as (mv & -> & Hmv).
      exists mv. split; [done|]. right.
      destruct Hmv as [[Hall ->] | (k & c' & Hk & Hlt & -> & Hbefore & Hall)].
      * exists 0%nat, c. split; [done|]. split; [lia|]. split.
        { apply elem_of_generate_children in Hc
            as (i & v & take & Hi & Ht & ->).
          simpl.
          rewrite (diff_loop_changed board i v _ 0 bestMove) by (done || lia).
          by rewrite (diff_loop_changed board i v _ 0 (-1, -1))
            by (done || lia). }
        split; [intros j c' Hj; lia|]. by constructor.
      * exists (S k), c'. split; [done|]. split; [lia|]. split; [done|].
        split.
        { intros [|j] c'' Hj Hl; simplify_eq/=; [done|].
          eapply Hbefore; [|done]. lia. }
        constructor; [lia | done].
    + destruct (IH bestScore bestMove memo' Hpop' Hcs') as (mv & -> & Hmv).
      exists mv. split; [done|].
      destruct Hmv as [[Hall ->] | (k & c' & Hk & Hlt & -> & Hbefore & Hall)].
      * left. split; [by constructor | done].
      * right. exists (S k), c'. split; [done|]. split; [done|].
        split; [done|]. split.
        { intros [|j] c'' Hj Hl; simplify_eq/=; [lia|].
          eapply Hbefore; [|done]. lia. }
        constructor; [lia | done].
Qed.

End Selection.

Section FirstPile.

(** The first child is the first non-empty pile with one object taken. *)
Lemma generate_children_head node :
  Forall (fun x => 0 <= x) (piles node) ->
  is_terminal (piles node) = false ->
  exists (i : nat) (v : Z) cs,
    piles node !! i = Some v /\ 1 <= v
    /\ (forall j : nat, (j < i)%nat -> piles node !! j = Some 0)
    /\ generate_children node = child_of node i v 1 :: cs.
Proof.
  rewrite generate_children_moves. unfold moves_of.
  destruct node as [p pl]. simpl.
  generalize (child_of (mkNode p pl)) as g. intros g Hnn Hterm.
  induction p as [|x p IH] in g, Hnn, Hterm |- *; [done|].
  inversion Hnn as [|? ? Hx Hp]; subst.
  rewrite imap_cons. simpl in Hterm.
  destruct (Z.eqb_spec x 0) as [->|Hx0]; simpl in Hterm.
  - destruct (IH (g ∘ S) Hp Hterm) as (i & v & cs & Hi & Hv & Hz & Hcs).
    exists (S i), v, cs. split; [done|]. split; [done|]. split.
    + intros [|j] Hj; [done|]. simpl. apply Hz. lia.
    + cbn [mjoin list_join]. rewrite seqZ_nil by lia. simpl. apply Hcs.
  - exists 0%nat, x. eexists. split; [done|]. split; [lia|]. split.
    + intros j Hj. lia.
    + cbn [mjoin list_join]. rewrite seqZ_cons by lia. rewrite fmap_cons.
      simpl. reflexivity.
Qed.

End FirstPile.

(** * Further properties of the selector *)

(** The selector returns the first of the best children. *)
Lemma selector_first_best fuel board :
  Forall (fun x => 0 <= x) board ->
  is_terminal board = false ->
  (total board < fuel)%nat ->
  exists (k i : nat) v take,
    generate_children (mkNode board AI) !! k
      = Some (child_of (mkNode board AI) i v take)
    /\ board !! i = Some v /\ 1 <= take <= v
    /\ best_ai_move fuel board = Some (Z.of_nat i, take)
    /\ game_value (child_of (mkNode board AI) i v take)
       = game_value (mkNode board AI)
    /\ forall (j : nat) c,
         (j < k)%nat -> generate_children (mkNode board AI) !! j = Some c ->
         game_value c < game_value (mkNode board AI).
Proof.
  intros Hnn Hterm Hfuel. unfold best_ai_move.
  destruct (minimax_game_value fuel (mkNode board 2) ∅)
    as (memo & -> & Hpop); [constructor | done |].
  set (root := mkNode board AI). change (mkNode board 2) with root.
  set (cs := generate_children root).
  assert (cs <> []) as Hne by by apply generate_children_nonempty.
  assert (Forall (fun c => game_value c = -1 \/ game_value c = 1) cs) as Hpm.
  { apply Forall_forall. intros c Hc. apply game_value_pm1.
    apply (child_nonneg root); [exact Hnn | exact Hc]. }
  destruct (select_loop_first_max board fuel ltac:(lia) cs INT_MIN
              (-1, -1) memo Hpop ltac:(done))
    as (mv & -> & [[Hall _] | (k & c & Hk & _ & -> & Hbefore & Hall)]).
  { exfalso. destruct cs as [|c cs']; [done|].
    inversion Hall as [|? ? Hc _]; subst. inversion Hpm as [|? ? Hc' _]; subst.
    unfold INT_MIN in Hc. lia. }
  assert (c ∈ cs) as Hc by by eapply list_elem_of_lookup_2.
  pose proof Hc as (i & v & take & Hi & Ht & ->)%elem_of_generate_children.
  assert (game_value (child_of root i v take) = game_value root) as Hval.
  { rewrite (game_value_unfold root). simpl piles. rewrite Hterm.
    change (player root =? 2) with true. cbv iota. fold cs.
    destruct (foldl_max_spec INT_MIN (game_value <$> cs)) as (Hin & _ & Hle).
    pose proof (proj1 (Forall_forall _ _) Hle) as Hle'.
    pose proof (proj1 (Forall_forall _ _) Hall) as Hall'.
    pose proof (proj1 (Forall_forall _ _) Hpm) as Hpm'.
    apply Z.le_antisymm.
    - apply Hle'. by apply list_elem_of_fmap_2.
    - destruct Hin as [Heq | (c' & -> & Hc')%list_elem_of_fmap].
      + rewrite Heq. pose proof (Hpm' _ Hc) as Hc1. cbv beta in Hc1.
        unfold INT_MIN. lia.
      + by apply Hall'. }
  exists k, i, v, take. simpl in Hi.
  split; [done|]. split; [done|]. split; [done|]. split.
  { simpl. rewrite (diff_loop_changed board i v) by (done || lia).
    do 2 f_equal; lia. }
  split; [done|]. intros j c' Hj Hl. rewrite <-Hval. by eapply Hbefore.
Qed.

(** X1. On a non-terminal board of non-negative piles, [best_ai_move]
    returns the move of the first child, in the order of generation, whose
    value equals the value of the board for the AI: every earlier child is
    worth strictly less. *)
Theorem best_ai_move_first_best fuel board :
  Forall (fun x => 0 <= x) board ->
  is_terminal board = false ->
  (total board < fuel)%nat ->
  exists (k i : nat) v take,
    generate_children (mkNode board AI) !! k
      = Some (child_of (mkNode board AI) i v take)
    /\ board !! i = Some v /\ 1 <= take <= v
    /\ best_ai_move fuel board = Some (Z.of_nat i, take)
    /\ game_value (child_of (mkNode board AI) i v take)
       = game_value (mkNode board AI)
    /\ forall (j : nat) c,
         (j < k)%nat -> generate_children (mkNode board AI) !! j = Some c ->
         game_value c < game_value (mkNode board AI).
Proof. apply selector_first_best. Qed.

Lemma best_ai_move_first_best_witness :
  exists (k i : nat) v take,
    generate_children (mkNode [1; 2] AI) !! k
      = Some (child_of (mkNode [1; 2] AI) i v take)
    /\ [1; 2] !! i = Some v /\ 1 <= take <= v
    /\ best_ai_move 4 [1; 2] = Some (Z.of_nat i, take)
    /\ game_value (child_of (mkNode [1; 2] AI) i v take)
       = game_value (mkNode [1; 2] AI)
    /\ forall (j : nat) c,
         (j < k)%nat -> generate_children (mkNode [1; 2] AI) !! j = Some c ->
         game_value c < game_value (mkNode [1; 2] AI).
Proof.
  apply (best_ai_move_first_best 4 [1; 2]);
    [nonneg_list | reflexivity | simpl; lia].
Defined.

(** With a winning move on the board, the selector returns one. *)
Lemma selector_winning fuel board :
  Forall (fun x => 0 <= x) board ->
  nim_sum board <> 0 ->
  (total board < fuel)%nat ->
  exists (i : nat) v take,
    best_ai_move fuel board = Some (Z.of_nat i, take)
    /\ board !! i = Some v /\ 1 <= take <= v
    /\ nim_sum (<[i := v - take]> board) = 0.
Proof.
  intros Hnn Hs Hfuel.
  assert (is_terminal board = false) as Hterm.
  { destruct (is_terminal board) eqn:Ht; [|done].
    by apply nim_sum_terminal in Ht. }
  destruct (selector_first_best fuel board Hnn Hterm Hfuel)
    as (k & i & v & take & _ & Hi & Ht & Hmv & Hval & _).
  exists i, v, take. split; [done|]. split; [done|]. split; [done|].
  destruct (game_value_nim board Hnn) as [Hroot _].
  destruct (game_value_nim (<[i := v - take]> board)) as [_ Hchild].
  { apply nonneg_insert; [done | lia]. }
  change (child_of (mkNode board AI) i v take)
    with (mkNode (<[i := v - take]> board) HUMAN) in Hval.
  rewrite Hroot, Hchild in Hval.
  destruct (Z.eqb_spec (nim_sum board) 0); [done|].
  destruct (Z.eqb_spec (nim_sum (<[i := v - take]> board)) 0); [done|lia].
Qed.

(** X2. From a board of non-negative piles with non-zero nim-sum,
    [best_ai_move] returns a legal move that leaves nim-sum zero: the AI
    plays a winning move whenever there is one. *)
Theorem best_ai_move_winning fuel board :
  Forall (fun x => 0 <= x) board ->
  nim_sum board <> 0 ->
  (total board < fuel)%nat ->
  exists (i : nat) v take,
    best_ai_move fuel board = Some (Z.of_nat i, take)
    /\ board !! i = Some v /\ 1 <= take <= v
    /\ nim_sum (<[i := v - take]> board) = 0.
Proof. apply selector_winning. Qed.

Lemma best_ai_move_winning_witness :
  exists (i : nat) v take,
    best_ai_move 13 [3; 4; 5] = Some (Z.of_nat i, take)
    /\ [3; 4; 5] !! i = Some v /\ 1 <= take <= v
    /\ nim_sum (<[i := v - take]> [3; 4; 5]) = 0.
Proof.
  apply (best_ai_move_winning 13 [3; 4; 5]);
    [nonneg_list | vm_compute; discriminate | simpl; lia].
Defined.

(** X3. From a non-terminal board of non-negative piles with nim-sum zero,
    where every move loses, [best_ai_move] takes one object from the first
    non-empty pile. *)
Theorem best_ai_move_losing fuel board :
  Forall (fun x => 0 <= x) board ->
  is_terminal board = false ->
  nim_sum board = 0 ->
  (total board < fuel)%nat ->
  exists (i : nat) v,
    board !! i = Some v /\ 1 <= v
    /\ (forall j : nat, (j < i)%nat -> board !! j = Some 0)
    /\ best_ai_move fuel board = Some (Z.of_nat i, 1).
Proof.
  intros Hnn Hterm Hs Hfuel.
  destruct (selector_first_best fuel board Hnn Hterm Hfuel)
    as (k & i & v & take & Hk & Hi & Ht & Hmv & Hval & Hbefore).
  destruct (generate_children_head (mkNode board AI) Hnn Hterm)
    as (i0 & v0 & cs & Hi0 & Hv0 & Hzero & Hcs).
  simpl in Hi0, Hzero.
  destruct (game_value_nim board Hnn) as [Hroot _].
  rewrite Hs in Hroot. simpl in Hroot.
  destruct k as [|k].
  - rewrite Hcs in Hk. simpl in Hk. injection Hk as Hpiles.
    assert (diff_loop board (<[i0 := v0 - 1]> board) 0 (-1, -1)
            = diff_loop board (<[i := v - take]> board) 0 (-1, -1)) as Hd
      by by rewrite Hpiles.
    rewrite (diff_loop_changed board i0 v0) in Hd by (done || lia).
    rewrite (diff_loop_changed board i v) in Hd by (done || lia).
    injection Hd as Hi' Ht'.
    assert (i = i0) as -> by lia. assert (take = 1) as -> by lia.
    exists i0, v0. by rewrite Hmv.
  - exfalso. rewrite Hcs in Hbefore.
    specialize (Hbefore 0%nat _ ltac:(lia) eq_refl).
    assert (game_value (child_of (mkNode board AI) i0 v0 1) = -1
            \/ game_value (child_of (mkNode board AI) i0 v0 1) = 1) as Hpm.
    { apply game_value_pm1. simpl. apply nonneg_insert; [done | lia]. }
    rewrite Hroot in Hbefore. lia.
Qed.

Lemma best_ai_move_losing_witness :
  exists (i : nat) v,
    [0; 2; 2] !! i = Some v /\ 1 <= v
    /\ (forall j : nat, (j < i)%nat -> [0; 2; 2] !! j = Some 0)
    /\ best_ai_move 5 [0; 2; 2] = Some (Z.of_nat i, 1).
Proof.
  apply (best_ai_move_losing 5 [0; 2; 2]);
    [nonneg_list | reflexivity | reflexivity | simpl; lia].
Defined.

(** * Further properties of the memo table and the key *)

(** X4. A call of [minimax] never removes or changes an entry of the table
    it is given, whatever the table holds: the table it leaves contains the
    one it started from. *)
Theorem minimax_keeps_entries fuel node memo v memo' :
  minimax fuel node memo = Some (v, memo') -> memo ⊆ memo'.
Proof. intros Hrun. by destruct (minimax_grows _ _ _ _ _ Hrun). Qed.

Lemma minimax_keeps_entries_witness :
  ({["7,|P1"%string := 5]} : Memo)
  ⊆ <["1,1,|P2"%string := -1]>
      (<["0,1,|P1"%string := -1]> {["7,|P1"%string := 5]}).
Proof.
  apply (minimax_keeps_entries 3 (mkNode [1; 1] AI) {["7,|P1"%string := 5]}
           (-1)).
  vm_compute. reflexivity.
Defined.

(** X5. Once a state has been evaluated, evaluating it again on the table
    left behind, or on any table containing it, takes one activation,
    returns the same score and leaves the table unchanged. *)
Theorem minimax_again fuel node memo v memo' later budget :
  minimax fuel node memo = Some (v, memo') ->
  memo' ⊆ later ->
  minimax (S budget) node later = Some (v, later).
Proof. apply minimax_replay. Qed.

Lemma minimax_again_witness :
  minimax 1 (mkNode [1; 1] AI)
    (<["1,1,|P2"%string := -1]> (<["0,1,|P1"%string := -1]> ∅))
  = Some (-1, <["1,1,|P2"%string := -1]> (<["0,1,|P1"%string := -1]> ∅)).
Proof.
  apply (minimax_again 3 (mkNode [1; 1] AI) ∅ (-1)
           (<["1,1,|P2"%string := -1]> (<["0,1,|P1"%string := -1]> ∅))).
  - vm_compute. reflexivity.
  - reflexivity.
Defined.

(** X6. After the evaluation of the root from an empty table, as in
    [best_ai_move], every child of the root is answered by one activation
    with its value, and the table stays as it is: the selection loop does no
    search of its own. *)
Theorem selection_needs_no_search fuel board v memo c budget :
  minimax fuel (mkNode board AI) ∅ = Some (v, memo) ->
  c ∈ generate_children (mkNode board AI) ->
  minimax (S budget) c memo = Some (game_value c, memo).
Proof.
  intros Hrun Hc.
  assert (populated memo) as Hpop.
  { eapply populated_minimax; [apply populated_empty | done]. }
  assert (exists vc, minimax (S budget) c memo = Some (vc, memo))
    as [vc Hvc].
  { destruct fuel as [|fuel]; [done|]. simpl in Hrun.
    destruct (is_terminal board) eqn:Hterm.
    { rewrite (generate_children_terminal (mkNode board AI) Hterm) in Hc.
      by apply elem_of_nil in Hc. }
    rewrite lookup_empty in Hrun. change (AI =? 2) with true in Hrun.
    cbv iota in Hrun.
    destruct (score_loop _ _ _ _ _) as [[b m1]|] eqn:Hloop; [|done].
    injection Hrun as <- <-.
    destruct (score_loop_replay _ _ _ _ _ _ _ budget Hloop c Hc)
      as [vc Hvc].
    exists vc. eapply minimax_replay; [done|].
    apply insert_subseteq.
    apply (grows_below_fresh (mkNode board AI) ∅); [apply lookup_empty|].
    eapply score_loop_grows; [|done].
    intros c' m v' m' Hc' Hrun'. eapply grows_below_mono;
      [|by eapply minimax_grows].
    apply child_total in Hc'. simpl in *. lia. }
  rewrite Hvc. f_equal. f_equal.
  by destruct (minimax_sound _ _ _ _ _ (populated_sound _ Hpop) Hvc).
Qed.

Lemma selection_needs_no_search_witness :
  minimax 1 (mkNode [0; 1] HUMAN)
    (<["1,1,|P2"%string := -1]> (<["0,1,|P1"%string := -1]> ∅))
  = Some (game_value (mkNode [0; 1] HUMAN),
          <["1,1,|P2"%string := -1]> (<["0,1,|P1"%string := -1]> ∅)).
Proof.
  apply (selection_needs_no_search 3 [1; 1] (-1)).
  - vm_compute. reflexivity.
  - apply elem_of_generate_children. exists 0%nat, 1, 1.
    split; [reflexivity|]. split; [lia | reflexivity].
Defined.

(** X7. A table built by evaluations holds no entry for a terminal state:
    terminal states are answered before the table is consulted and are
    never stored. *)
Theorem terminal_never_stored memo p pl :
  populated memo -> is_terminal p = true -> memo !! key_of p pl = None.
Proof.
  intros Hpop Hterm.
  assert (forall k, is_Some (memo !! k) ->
            exists node, k = key_of (piles node) (player node)
                         /\ is_terminal (piles node) = false) as Hkeys.
  { clear p pl Hterm.
    induction Hpop as [|fuel node memo v memo' _ IH Hrun]; intros k Hk.
    - rewrite lookup_empty in Hk. by destruct Hk.
    - destruct (minimax_grows _ _ _ _ _ Hrun) as [_ Hnew].
      destruct (memo !! k) as [x|] eqn:Hold.
      + apply IH. by eexists.
      + destruct (Hnew k Hold Hk) as (nd & ? & ? & _). by exists nd. }
  destruct (memo !! key_of p pl) as [x|] eqn:Hlook; [|done].
  destruct (Hkeys _ ltac:(by eexists)) as (nd & Heq & Hnt).
  apply key_of_inj in Heq as [Hp _].
  rewrite (is_terminal_perm _ _ Hp) in Hterm. congruence.
Qed.

Lemma terminal_never_stored_witness :
  (<["1,1,|P2"%string := -1]> (<["0,1,|P1"%string := -1]> ∅) : Memo)
    !! key_of [0; 0] HUMAN = None.
Proof.
  apply (terminal_never_stored _ [0; 0] HUMAN); [|reflexivity].
  apply (populated_minimax 3 (mkNode [1; 1] AI) ∅ (-1));
    [apply populated_empty | vm_compute; reflexivity].
Defined.



(** * Further properties of the children *)

(** X9. The number of children of a state is the number of objects on its
    board (a pile below zero counts for none): one child per object that can
    be the last one taken from its pile. *)
Theorem generate_children_length node :
  length (generate_children node) = total (piles node).
Proof.
  rewrite generate_children_moves. unfold moves_of.
  generalize (child_of node) as g. intros g.
  induction (piles node) as [|x p IH] in g |- *; [done|].
  rewrite imap_cons. cbn [mjoin list_join]. rewrite length_app, length_fmap.
  rewrite length_seqZ. simpl. f_equal. apply (IH (g ∘ S)).
Qed.

(** X10. Diffing a child against its parent, as [best_ai_move] does, gives a
    pile index inside the board and an amount such that removing the amount
    from that pile, as [main] does, turns the parent's board into the
    child's. *)
Theorem diff_loop_recovers_move node c bestMove :
  c ∈ generate_children node ->
  0 <= (diff_loop (piles node) (piles c) 0 bestMove).1
       < Z.of_nat (length (piles node))
  /\ remove_from (piles node)
       (diff_loop (piles node) (piles c) 0 bestMove).1
       (diff_loop (piles node) (piles c) 0 bestMove).2
     = piles c.
Proof.
  intros (i & v & take & Hi & Ht & ->)%elem_of_generate_children.
  simpl piles. rewrite (diff_loop_changed (piles node) i v) by (done || lia).
  simpl. rewrite Z.add_0_l. split.
  - apply lookup_lt_Some in Hi. lia.
  - unfold remove_from. rewrite Nat2Z.id, Hi. f_equal. lia.
Qed.

Lemma diff_loop_recovers_move_witness :
  0 <= (diff_loop [3; 4] [3; 1] 0 (-1, -1)).1 < 2
  /\ remove_from [3; 4] (diff_loop [3; 4] [3; 1] 0 (-1, -1)).1
       (diff_loop [3; 4] [3; 1] 0 (-1, -1)).2
     = [3; 1].
Proof.
  apply (diff_loop_recovers_move (mkNode [3; 4] AI) (mkNode [3; 1] HUMAN)).
  apply elem_of_generate_children. exists 1%nat, 4, 3.
  split; [reflexivity|]. split; [lia | reflexivity].
Defined.

(** Boards on which nothing can be taken although a pile is not zero. *)
Lemma negative_board_moves fuel p memo :
  Forall (fun x => x <= 0) p ->
  is_terminal p = false ->
  generate_children (mkNode p AI) = []
  /\ (memo !! key_of p AI = None ->
      minimax (S fuel) (mkNode p AI) memo
      = Some (INT_MIN, <[key_of p AI := INT_MIN]> memo))
  /\ (memo !! key_of p HUMAN = None ->
      minimax (S fuel) (mkNode p HUMAN) memo
      = Some (INT_MAX, <[key_of p HUMAN := INT_MAX]> memo))
  /\ best_ai_move (S fuel) p = Some (-1, -1).
Proof.
  intros Hle Hterm.
  assert (forall pl, generate_children (mkNode p pl) = []) as Hcs.
  { intros pl. destruct (generate_children (mkNode p pl)) as [|c cs] eqn:Heq;
      [done|].
    assert (c ∈ generate_children (mkNode p pl)) as Hc by (rewrite Heq; left).
    apply elem_of_generate_children in Hc as (i & v & take & Hi & Ht & _).
    rewrite Forall_lookup in Hle. specialize (Hle _ _ Hi). simpl in Hle. lia. }
  split; [apply Hcs|]. split; [|split].
  - intros Hk. simpl. rewrite Hterm, Hk, (Hcs AI). done.
  - intros Hk. simpl. rewrite Hterm, Hk, (Hcs HUMAN). done.
  - unfold best_ai_move. simpl. rewrite Hterm, lookup_empty.
    change 2 with AI. rewrite (Hcs AI). done.
Qed.

(** X11. A board with no positive pile but a negative one is not terminal
    and has no children.  On it [minimax] returns the sentinel its
    accumulator starts from, [INT_MIN] for the AI and [INT_MAX] for the
    human, and files it in the table; [best_ai_move] returns [(-1, -1)]. *)
Theorem negative_board_sentinels fuel p memo :
  Forall (fun x => x <= 0) p ->
  is_terminal p = false ->
  generate_children (mkNode p AI) = []
  /\ (memo !! key_of p AI = None ->
      minimax (S fuel) (mkNode p AI) memo
      = Some (INT_MIN, <[key_of p AI := INT_MIN]> memo))
  /\ (memo !! key_of p HUMAN = None ->
      minimax (S fuel) (mkNode p HUMAN) memo
      = Some (INT_MAX, <[key_of p HUMAN := INT_MAX]> memo))
  /\ best_ai_move (S fuel) p = Some (-1, -1).
Proof. apply negative_board_moves. Qed.

Lemma negative_board_sentinels_witness :
  generate_children (mkNode [0; -3] AI) = []
  /\ ((∅ : Memo) !! key_of [0; -3] AI = None ->
      minimax 1 (mkNode [0; -3] AI) ∅
      = Some (INT_MIN, <[key_of [0; -3] AI := INT_MIN]> ∅))
  /\ ((∅ : Memo) !! key_of [0; -3] HUMAN = None ->
      minimax 1 (mkNode [0; -3] HUMAN) ∅
      = Some (INT_MAX, <[key_of [0; -3] HUMAN := INT_MAX]> ∅))
  /\ best_ai_move 1 [0; -3] = Some (-1, -1).
Proof.
  apply (negative_board_sentinels 0 [0; -3] ∅);
    [repeat first [apply List.Forall_nil | apply List.Forall_cons; [lia|]]
    | reflexivity].
Defined.

(** * The console game *)

Section Moves.

Lemma emit_exit chunks r : (emit chunks r).1 = r.1.
Proof. done. Qed.

Lemma emit_out chunks r : (emit chunks r).2 = chunks ++ r.2.
Proof. done. Qed.

(** A human move passes the test exactly when it names a pile of the board
    and an amount between one and the size of that pile. *)
Lemma invalid_move_false piles pidx amt :
  invalid_move (Z.of_nat (length piles)) piles pidx amt = false <->
  exists (i : nat) v,
    pidx = Z.of_nat i /\ piles !! i = Some v /\ 1 <= amt <= v.
Proof.
  unfold invalid_move. split.
  - intros H. apply orb_false_elim in H as [H Hamt].
    apply orb_false_elim in H as [H Hle].
    apply orb_false_elim in H as [Hneg Hge].
    apply Z.ltb_ge in Hneg. rewrite Z.geb_leb in Hge.
    apply Z.leb_gt in Hge. apply Z.leb_gt in Hle.
    destruct (piles !! Z.to_nat pidx) as [v|] eqn:Hv; [|done].
    exists (Z.to_nat pidx), v. split; [lia|]. split; [done|].
    destruct (Z.gtb_spec amt v); [done | lia].
  - intros (i & v & -> & Hi & Ht). rewrite Nat2Z.id, Hi.
    pose proof (lookup_lt_Some _ _ _ Hi) as Hlt.
    destruct (Z.ltb_spec (Z.of_nat i) 0); [lia|].
    destruct (Z.geb_spec (Z.of_nat i) (Z.of_nat (length piles))); [lia|].
    destruct (Z.leb_spec amt 0); [lia|].
    destruct (Z.gtb_spec amt v); [lia | done].
Qed.

Lemma remove_from_insert piles (i : nat) v amt :
  piles !! i = Some v ->
  remove_from piles (Z.of_nat i) amt = <[i := v - amt]> piles.
Proof. intros Hi. unfold remove_from. by rewrite Nat2Z.id, Hi. Qed.

(** The move of the AI on a board it can move on. *)
Lemma best_ai_move_applies depth piles :
  Forall (fun x => 0 <= x) piles ->
  is_terminal piles = false ->
  (total piles < depth)%nat ->
  exists (i : nat) v take,
    best_ai_move depth piles = Some (Z.of_nat i, take)
    /\ piles !! i = Some v /\ 1 <= take <= v
    /\ (0 <=? Z.of_nat i) && (Z.of_nat i <? Z.of_nat (length piles)) = true
    /\ (nim_sum piles <> 0 -> nim_sum (<[i := v - take]> piles) = 0).
Proof.
  intros Hnn Hterm Hdepth.
  destruct (selector_first_best depth piles Hnn Hterm Hdepth)
    as (k & i & v & take & _ & Hi & Ht & Hmv & _).
  exists i, v, take. split; [done|]. split; [done|]. split; [done|]. split.
  - pose proof (lookup_lt_Some _ _ _ Hi) as Hlt.
    apply andb_true_intro. split; [apply Z.leb_le | apply Z.ltb_lt]; lia.
  - intros Hs.
    destruct (selector_winning depth piles Hnn Hs Hdepth)
      as (i' & v' & take' & Hmv' & Hi' & _ & Hz).
    rewrite Hmv in Hmv'. injection Hmv' as Hii <-.
    apply Nat2Z.inj in Hii as <-. by simplify_eq.
Qed.

End Moves.

Section GameLoop.

(** The number of piles, the depth budget, and a property [P] of the board
    and the turn that the moves of both players keep. *)
Variable n : Z.
Variable depth : nat.
Variable P : list Z -> Z -> Prop.

Hypothesis P_board : forall piles turn,
  P piles turn ->
  Forall (fun x => 0 <= x) piles /\ n = Z.of_nat (length piles)
  /\ (total piles < depth)%nat.
Hypothesis P_human : forall piles (i : nat) v amt,
  P piles 1 -> is_terminal piles = false ->
  piles !! i = Some v -> 1 <= amt <= v ->
  P (<[i := v - amt]> piles) 2.
Hypothesis P_ai : forall piles turn (i : nat) v take,
  P piles turn -> turn <> 1 -> is_terminal piles = false ->
  best_ai_move depth piles = Some (Z.of_nat i, take) ->
  piles !! i = Some v -> 1 <= take <= v ->
  P (<[i := v - take]> piles) 1.

(** With iterations to spare the loop ends when the input runs out or when
    the game is over, on a terminal board that satisfies [P]. *)
Lemma game_loop_invariant iters piles turn (input : list Z) :
  P piles turn ->
  (length input + (if (turn =? 1)%Z then 0 else 1) < iters)%nat ->
  (game_loop iters depth n piles turn input).1 = InputEnd
  \/ ((game_loop iters depth n piles turn input).1 = Returned
      /\ exists pre final who,
           P final who /\ is_terminal final = true
           /\ (game_loop iters depth n piles turn input).2
              = pre ++ [game_over who]).
Proof.
  revert piles turn input.
  induction iters as [|iters IH]; intros piles turn input HP Hit; [lia|].
  destruct (P_board _ _ HP) as (Hnn & Hn & Hdepth).
  cbn [game_loop]. rewrite emit_exit, emit_out.
  destruct (is_terminal piles) eqn:Hterm.
  { right. split; [done|]. exists (print_board piles), piles, turn. done. }
  destruct (Z.eqb_spec turn 1) as [-> | Hturn].
  - rewrite emit_exit, emit_out.
    destruct input as [|pidx [|amt input]]; [by left..|].
    destruct (invalid_move n piles (pidx - 1) amt) eqn:Hinv.
    + rewrite emit_exit, emit_out.
      destruct (IH piles 1 input HP) as [Hend | (Hret & pre & f & w & Hf)].
      { simpl in *. lia. }
      * by left.
      * right. split; [done|]. destruct Hf as (? & ? & ->).
        eexists _, f, w. split; [done|]. split; [done|].
        by rewrite !app_assoc.
    + rewrite Hn in Hinv.
      apply invalid_move_false in Hinv as (i & v & Hpidx & Hi & Hamt).
      rewrite Hpidx, (remove_from_insert piles i v amt Hi).
      destruct (IH (<[i := v - amt]> piles) 2 input)
        as [Hend | (Hret & pre & f & w & Hf)].
      { by eapply P_human. }
      { simpl in *. lia. }
      * by left.
      * right. split; [done|]. destruct Hf as (? & ? & ->).
        eexists _, f, w. split; [done|]. split; [done|].
        by rewrite !app_assoc.
  - rewrite emit_exit, emit_out.
    destruct (best_ai_move_applies depth piles Hnn Hterm Hdepth)
      as (i & v & take & Hmv & Hi & Ht & Hin & _).
    rewrite Hmv. rewrite emit_exit, emit_out. cbn [fst snd]. rewrite Hin.
    rewrite (remove_from_insert piles i v take Hi).
    destruct (IH (<[i := v - take]> piles) 1 input)
      as [Hend | (Hret & pre & f & w & Hf)].
    { by eapply P_ai. }
    { simpl in *. lia. }
    + by left.
    + right. split; [done|]. destruct Hf as (? & ? & ->).
      eexists _, f, w. split; [done|]. split; [done|].
      by rewrite !app_assoc.
Qed.

End GameLoop.

Section Main.

(** What [main] has written when the game starts. *)
Lemma main_reads iters depth piles turn moves :
  main iters depth (Z.of_nat (length piles) :: piles ++ turn :: moves)
  = emit ["Welcome to the Nim Game!" +:+ nl +:+ nl; "Enter number of piles: ";
          "Enter pile sizes:" +:+ nl; "Who goes first? (1 = You, 2 = AI): "]
      (game_loop iters depth (Z.of_nat (length piles)) piles turn moves).
Proof.
  unfold main. destruct (Z.ltb_spec (Z.of_nat (length piles)) 0); [lia|].
  rewrite Nat2Z.id, take_app_length, drop_app_length, Nat.ltb_irrefl.
  by destruct (game_loop _ _ _ _ _ _).
Qed.

Lemma last_emit chunks r s :
  last r.2 = Some s -> last (emit chunks r).2 = Some s.
Proof.
  rewrite emit_out. destruct r as [e out]. simpl.
  destruct out as [|x out _] using rev_ind; [done|].
  rewrite app_assoc, !last_snoc. done.
Qed.




(** A human who moves to nim-sum zero each time wins. *)
Lemma human_strategy depth k piles :
  (total piles <= k)%nat ->
  (total piles < depth)%nat ->
  Forall (fun x => 0 <= x) piles ->
  nim_sum piles <> 0 ->
  exists moves : list Z,
    forall iters, (length moves < iters)%nat ->
      (game_loop iters depth (Z.of_nat (length piles)) piles 1 moves).1
      = Returned
      /\ last (game_loop iters depth (Z.of_nat (length piles)) piles 1
                 moves).2
         = Some (game_over 2).
Proof.
  revert piles. induction k as [|k IH]; intros piles Hk Hdepth Hnn Hs.
  { exfalso. apply Hs. apply nim_sum_terminal.
    destruct (is_terminal piles) eqn:Ht; [done|].
    destruct (generate_children_first (mkNode piles AI) Hnn Ht)
      as (i & v & cs & Hi & Hv & _).
    pose proof (total_insert piles i v 0 Hi). simpl in *. lia. }
  assert (is_terminal piles = false) as Hterm.
  { destruct (is_terminal piles) eqn:Ht; [|done].
    by apply nim_sum_terminal in Ht. }
  destruct (nim_sum_nonzero_move piles Hnn Hs) as (i & v & take & Hi & Ht & Hz).
  set (p1 := <[i := v - take]> piles) in *.
  assert (Forall (fun x => 0 <= x) p1) as Hnn1
    by (apply nonneg_insert; [done | lia]).
  assert (total p1 < total piles)%nat as Hlt1.
  { pose proof (total_insert piles i v (v - take) Hi). fold p1 in H. lia. }
  assert (length p1 = length piles) as Hlen1 by apply length_insert.
  assert (invalid_move (Z.of_nat (length piles)) piles
            (Z.of_nat i + 1 - 1) take = false) as Hvalid.
  { apply invalid_move_false. exists i, v. split; [lia|]. done. }
  assert (remove_from piles (Z.of_nat i + 1 - 1) take = p1) as Hrem.
  { replace (Z.of_nat i + 1 - 1) with (Z.of_nat i) by lia.
    by apply remove_from_insert. }
  destruct (is_terminal p1) eqn:Hterm1.
  - exists [Z.of_nat i + 1; take]. intros [|[|iters]] Hit; simpl in Hit;
      [lia..|].
    cbn [game_loop]. rewrite Hterm. cbn [Z.eqb Pos.eqb].
    rewrite Hvalid, Hrem, Hterm1. split; [done|].
    by do 3 apply last_emit.
  - destruct (best_ai_move_applies depth p1 Hnn1 Hterm1 ltac:(lia))
      as (j & w & a & Hmv & Hj & Ha & Hin & _).
    set (p2 := <[j := w - a]> p1) in *.
    assert (nim_sum p2 <> 0) as Hs2
      by (apply nim_sum_zero_moves; [done | done | lia]).
    assert (total p2 < total p1)%nat as Hlt2.
    { pose proof (total_insert p1 j w (w - a) Hj). fold p2 in H. lia. }
    destruct (IH p2) as [rest Hrest];
      [lia | lia | apply nonneg_insert; [done | lia] | done |].
    assert (length p2 = length piles) as Hlen2.
    { unfold p2. by rewrite length_insert. }
    rewrite Hlen2 in Hrest.
    exists (Z.of_nat i + 1 :: take :: rest).
    intros [|[|iters]] Hit; simpl in Hit; [lia..|].
    cbn [game_loop]. rewrite Hterm. cbn [Z.eqb Pos.eqb].
    rewrite Hvalid, Hrem, Hterm1, Hmv. cbn [fst snd].
    rewrite Hlen1 in Hin. rewrite Hlen1, Hin.
    rewrite (remove_from_insert p1 j w a Hj). fold p2.
    destruct (Hrest iters ltac:(lia)) as [Hexit Hlast].
    rewrite !emit_exit. split; [done|].
    by do 5 apply last_emit.
Qed.

End Main.

(** * Further properties of the console game *)



(** X13. When the game starts on non-negative piles in a position that is
    won for the AI (the AI to move on a non-zero nim-sum, or the human to
    move on nim-sum zero), no sequence of human moves makes [main] announce
    the human as winner: a run that returns ends with "Winner is AI!". *)
Theorem main_ai_wins iters depth piles turn moves :
  Forall (fun x => 0 <= x) piles ->
  (total piles < depth)%nat ->
  (length moves + 1 < iters)%nat ->
  (turn = 1 /\ nim_sum piles = 0) \/ (turn <> 1 /\ nim_sum piles <> 0) ->
  (main iters depth (Z.of_nat (length piles) :: piles ++ turn :: moves)).1
  = InputEnd
  \/ ((main iters depth
         (Z.of_nat (length piles) :: piles ++ turn :: moves)).1 = Returned
      /\ last (main iters depth
                 (Z.of_nat (length piles) :: piles ++ turn :: moves)).2
         = Some (nl +:+ "Game over. Winner is AI!" +:+ nl)).
Proof.
  intros Hnn Hdepth Hit Hpos. rewrite main_reads, emit_exit.
  destruct (game_loop_invariant (Z.of_nat (length piles)) depth
              (fun p t => (Forall (fun x => 0 <= x) p
                           /\ length p = length piles
                           /\ (total p < depth)%nat)
                          /\ ((t = 1 /\ nim_sum p = 0)
                              \/ (t <> 1 /\ nim_sum p <> 0))))
    with (iters := iters) (piles := piles) (turn := turn) (input := moves)
    as [Hend | (Hret & pre & final & who & HP & Hterm & Hout)].
  - intros p _ [(? & ? & ?) _]. split; [done|]. split; [|done]. by f_equal.
  - intros p i v amt [(Hp & Hl & Ht) Hnim] _ Hi Ha. split.
    + split; [apply nonneg_insert; [done | lia]|].
      split; [by rewrite length_insert|].
      pose proof (total_insert p i v (v - amt) Hi). lia.
    + right. split; [done|]. destruct Hnim as [[_ Hz] | [? _]]; [|done].
      apply nim_sum_zero_moves; [done | done | lia].
  - intros p t i v take [(Hp & Hl & Ht) Hnim] Hturn Hnt Hmv Hi Ha. split.
    + split; [apply nonneg_insert; [done | lia]|].
      split; [by rewrite length_insert|].
      pose proof (total_insert p i v (v - take) Hi). lia.
    + left. split; [done|]. destruct Hnim as [[? _] | [_ Hnz]]; [done|].
      destruct (best_ai_move_applies depth p Hp Hnt Ht)
        as (i' & v' & take' & Hmv' & Hi' & _ & _ & Hz).
      rewrite Hmv in Hmv'. injection Hmv' as Hii <-.
      apply Nat2Z.inj in Hii as <-. simplify_eq. by apply Hz.
  - done.
  - destruct (turn =? 1); lia.
  - by left.
  - right. split; [done|]. apply last_emit. rewrite Hout, last_snoc.
    destruct HP as [_ [[-> _] | [_ Hnz]]]; [done|].
    by apply nim_sum_terminal in Hterm.
Qed.

Lemma main_ai_wins_witness :
  (main 9 8 [2; 3; 4; 2; 2; 2; 1; 3; 1; 1]).1 = InputEnd
  \/ ((main 9 8 [2; 3; 4; 2; 2; 2; 1; 3; 1; 1]).1 = Returned
      /\ last (main 9 8 [2; 3; 4; 2; 2; 2; 1; 3; 1; 1]).2
         = Some (nl +:+ "Game over. Winner is AI!" +:+ nl)).
Proof.
  apply (main_ai_wins 9 8 [3; 4] 2 [2; 2; 1; 3; 1; 1]);
    [nonneg_list | simpl; lia | simpl; lia |].
  right. split; [discriminate | vm_compute; discriminate].
Defined.

(** X14. When the human is to move on non-negative piles with a non-zero
    nim-sum, some sequence of moves makes [main] return with "Winner is
    You!": the AI can be beaten from every position that is lost for it. *)
Theorem main_human_can_win depth piles :
  Forall (fun x => 0 <= x) piles ->
  (total piles < depth)%nat ->
  nim_sum piles <> 0 ->
  exists moves : list Z,
    forall iters, (length moves < iters)%nat ->
      (main iters depth (Z.of_nat (length piles) :: piles ++ 1 :: moves)).1
      = Returned
      /\ last (main iters depth
                 (Z.of_nat (length piles) :: piles ++ 1 :: moves)).2
         = Some (nl +:+ "Game over. Winner is You!" +:+ nl).
Proof.
  intros Hnn Hdepth Hs.
  destruct (human_strategy depth (total piles) piles) as [moves Hmoves];
    [done..|].
  exists moves. intros iters Hit. rewrite main_reads, emit_exit.
  destruct (Hmoves iters Hit) as [Hexit Hlast]. split; [done|].
  by apply last_emit.
Qed.

Lemma main_human_can_win_witness :
  exists moves : list Z,
    forall iters, (length moves < iters)%nat ->
      (main iters 8 (2 :: [3; 4] ++ 1 :: moves)).1 = Returned
      /\ last (main iters 8 (2 :: [3; 4] ++ 1 :: moves)).2
         = Some (nl +:+ "Game over. Winner is You!" +:+ nl).
Proof.
  apply (main_human_can_win 8 [3; 4]);
    [nonneg_list | simpl; lia | vm_compute; discriminate].
Defined.





(** * The board as printed *)

Section PrintBoard.

Lemma pretty_N_go_no_char a x s :
  (forall d, pretty_N_char d <> a) ->
  free_of a s -> free_of a (pretty_N_go x s).
Proof.
  intros Ha. revert s.
  induction (N.lt_wf_0 x) as [x _ IH]. intros s Hs.
  destruct (decide (x = 0)%N) as [->|Hx].
  - by rewrite pretty_N_go_0.
  - rewrite pretty_N_go_step by lia. apply IH.
    + apply N.div_lt; lia.
    + split; [apply Ha | done].
Qed.

(** A numeral holds digits and at most a minus sign. *)
Lemma to_string_no_char a z :
  (forall d, pretty_N_char d <> a) -> a <> "-"%char ->
  free_of a (to_string z).
Proof.
  intros Ha Hminus.
  assert (forall x : N, free_of a (pretty x)) as HN.
  { intros x. unfold pretty, pretty_N. case_decide.
    - split; [apply (Ha 0%N) | done].
    - by apply pretty_N_go_no_char. }
  unfold to_string, pretty, pretty_Z. destruct z as [|q|q].
  - split; [apply (Ha 0%N) | done].
  - apply HN.
  - rewrite app_String, app_empty_l. split; [by apply not_eq_sym | apply HN].
Qed.

Lemma to_string_no_nl z : free_of "010"%char (to_string z).
Proof.
  apply to_string_no_char; [|discriminate].
  intros d. unfold pretty_N_char. repeat case_match; discriminate.
Qed.

Lemma text_lines_inj (k : nat) (p q : list Z) :
  text (imap (fun i v =>
                "Pile " +:+ to_string (Z.of_nat (k + i) + 1) +:+ ": "
                +:+ to_string v +:+ nl) p)
  = text (imap (fun i v =>
                  "Pile " +:+ to_string (Z.of_nat (k + i) + 1) +:+ ": "
                  +:+ to_string v +:+ nl) q)
  -> p = q.
Proof.
  revert k q. induction p as [|x p IH]; intros k [|y q]; rewrite ?imap_cons;
    cbn [text foldr].
  - done.
  - rewrite !app_String. discriminate.
  - rewrite !app_String. discriminate.
  - rewrite !string_app_assoc. intros Heq.
    do 3 apply (inj (String.append _)) in Heq.
    unfold nl in Heq. rewrite !app_String, !app_empty_l in Heq.
    apply split_at_sep in Heq as [Hxy Hrest]; [|apply to_string_no_nl..].
    apply to_string_inj in Hxy as ->. f_equal. apply (IH (S k)).
    assert (forall l : list Z,
              imap (fun i v =>
                      "Pile " +:+ to_string (Z.of_nat (S k + i) + 1) +:+ ": "
                      +:+ to_string v +:+ nl) l
              = imap ((fun i v =>
                         "Pile " +:+ to_string (Z.of_nat (k + i) + 1) +:+ ": "
                         +:+ to_string v +:+ nl) ∘ S) l) as Himap.
    { intros l. apply imap_ext. intros i v _. simpl.
      by replace (k + S i)%nat with (S (k + i)) by lia. }
    unfold text. rewrite !Himap. exact Hrest.
Qed.

End PrintBoard.

(** X17. The text [print_board] writes determines the board: two boards
    printed alike have the same piles in the same order. *)
Theorem print_board_inj p q :
  text (print_board p) = text (print_board q) -> p = q.
Proof.
  unfold print_board. cbn [text foldr]. intros Heq.
  apply (inj (String.append _)) in Heq.
  by apply (text_lines_inj 0).
Qed.

Lemma print_board_inj_witness :
  text (print_board [12; 3]) <> text (print_board [1; 23]).
Proof.
  intros Heq. apply (print_board_inj [12; 3] [1; 23]) in Heq. discriminate Heq.
Defined.

(** X18. When no pile is entered, or only empty piles, the game is over
    before anyone moves: [main] prints the board once and announces as
    winner the opponent of the player who was to start, reading no move. *)
Theorem main_empty_board iters depth piles turn moves :
  Forall (fun x => x = 0) piles ->
  main (S iters) depth (Z.of_nat (length piles) :: piles ++ turn :: moves)
  = (Returned,
     ["Welcome to the Nim Game!" +:+ nl +:+ nl; "Enter number of piles: ";
      "Enter pile sizes:" +:+ nl; "Who goes first? (1 = You, 2 = AI): "]
     ++ print_board piles
     ++ [nl +:+ "Game over. Winner is "
         +:+ (if turn =? 1 then "AI" else "You") +:+ "!" +:+ nl]).
Proof.
  intros Hz%is_terminal_Forall. rewrite main_reads.
  cbn [game_loop]. by rewrite Hz.
Qed.

Lemma main_empty_board_witness :
  main 1 0 [0; 2]
  = (Returned,
     ["Welcome to the Nim Game!" +:+ nl +:+ nl; "Enter number of piles: ";
      "Enter pile sizes:" +:+ nl; "Who goes first? (1 = You, 2 = AI): "]
     ++ print_board []
     ++ [nl +:+ "Game over. Winner is "
         +:+ (if 2 =? 1 then "AI" else "You") +:+ "!" +:+ nl]).
Proof. apply (main_empty_board 0 0 [] 2 []). apply List.Forall_nil. Defined.
